(** * The multi-strategy chunking engine of rag-setup

    A shallow embedding of [backend/services/chunking] (the page-offset
    bookkeeping, the Character, Paragraph, Sentence, Recursive and Semantic
    strategies and the strategy factory) together with the properties the
    specification states about them.

    Conventions.  A Python [str] is a list of characters, a Python [int] is
    a [Z], a Python dict with a fixed set of keys is a record, a [while]
    loop is a function with an iteration budget that answers [None] when
    the budget runs out, and a raised exception is the left injection of a
    sum. *)

From Stdlib Require Import List ZArith Lia Bool Ascii String QArith.
Import ListNotations.

Local Open Scope Z_scope.

(** ** Python string primitives *)

Module PyStr.

Definition str := list ascii.

(** A string literal of the source. *)
Definition py (s : string) : str := list_ascii_of_string s.

(** [len(s)] *)
Definition len (s : str) : Z := Z.of_nat (List.length s).

(** The bounds of [s[i:j]]: a negative index counts from the end, and
    both ends are clamped to [0 .. len(s)]. *)
Definition clamp_index (n i : Z) : Z :=
  if i <? 0 then Z.max 0 (i + n) else Z.min i n.

(** [s[i:j]], for a string and for a list alike. *)
Definition slice {A : Type} (s : list A) (i j : Z) : list A :=
  let n := Z.of_nat (List.length s) in
  let lo := clamp_index n i in
  let hi := clamp_index n j in
  if lo <? hi then firstn (Z.to_nat (hi - lo)) (skipn (Z.to_nat lo) s)
  else [].

(** The characters the source names by escapes. *)
Definition LF : ascii := ascii_of_nat 10.
Definition SP : ascii := ascii_of_nat 32.
Definition BACKSLASH : ascii := ascii_of_nat 92.

(** ["\n\n"], the paragraph break and the page separator. *)
Definition para_break : str := [LF; LF].

Definition eqb (a b : str) : bool :=
  if list_eq_dec ascii_dec a b then true else false.

(** [s.startswith(p)] *)
Fixpoint starts_with (p s : str) : bool :=
  match p, s with
  | [], _ => true
  | _ :: _, [] => false
  | a :: p', b :: s' => Ascii.eqb a b && starts_with p' s'
  end.

(** [p in s] *)
Fixpoint contains (p s : str) : bool :=
  starts_with p s ||
  match s with
  | [] => false
  | _ :: s' => contains p s'
  end.

(** [sep.join(parts)] *)
Fixpoint join (sep : str) (parts : list str) : str :=
  match parts with
  | [] => []
  | [p] => p
  | p :: rest => p ++ sep ++ join sep rest
  end.

(** Whitespace as [str.strip()] and the pattern [\s] see it, on the
    first 256 code points: TAB, LF, VT, FF, CR, FS, GS, RS, US, SPACE,
    NEL and NBSP. *)
Definition is_space (c : ascii) : bool :=
  let n := nat_of_ascii c in
  ((9 <=? n) && (n <=? 13) || (28 <=? n) && (n <=? 32) ||
   (n =? 133) || (n =? 160))%nat.

Fixpoint lstrip (s : str) : str :=
  match s with
  | [] => []
  | c :: s' => if is_space c then lstrip s' else s
  end.

(** [s.strip()] *)
Definition strip (s : str) : str := rev (lstrip (rev (lstrip s))).

(** Truth value of a string: [if s:] *)
Definition truthy (s : str) : bool :=
  match s with [] => false | _ :: _ => true end.

(** [s.split(sep)] for a non-empty [sep]: the pieces between the
    non-overlapping occurrences of [sep], found from left to right.
    [skip] counts the characters of an occurrence still to be dropped,
    [acc] holds the current piece in reverse. *)
Fixpoint split_go (sep : str) (skip : nat) (acc : str) (s : str)
  : list str :=
  match s with
  | [] => [rev acc]
  | c :: s' =>
      match skip with
      | S k => split_go sep k acc s'
      | O =>
          if starts_with sep s
          then rev acc :: split_go sep (List.length sep - 1) [] s'
          else split_go sep O (c :: acc) s'
      end
  end.

Definition split (s sep : str) : list str := split_go sep O [] s.

(** [s.find(sub, start)] for [0 <= start]: the least index at or after
    [start] where [sub] occurs, or [-1]. *)
Fixpoint find_go (sub : str) (pos : Z) (s : str) : Z :=
  if starts_with sub s then pos
  else match s with
       | [] => -1
       | _ :: s' => find_go sub (pos + 1) s'
       end.

Definition find (s sub : str) (start : Z) : Z :=
  if len s <? start then -1
  else find_go sub start (skipn (Z.to_nat start) s).

End PyStr.

Import PyStr.

(** ** Pages, chunks and the page-offset map *)

(** A page as the extraction layer hands it over:
    [{"page_number": ..., "text": ...}]. *)
Record Page := mkPage { page_number : Z; page_text : str }.

(** An entry of [page_map]:
    [{"start": ..., "end": ..., "page_number": ...}]. *)
Record PageSpan := mkSpan { pm_start : Z; pm_end : Z; pm_page_number : Z }.

(** A chunk: [{"text": ..., "metadata": {"page_numbers": [...]}}]; the
    metadata dict is empty ([None]) where the source emits [{}]. *)
Record Chunk := mkChunk { text : str; page_numbers : option (list Z) }.

Module PageOffsetMap.

(** The body of [for i, page in enumerate(pages)], with [n = len(pages)]. *)
Fixpoint build_loop (n i current_offset : Z) (pages : list Page)
  : list PageSpan :=
  match pages with
  | [] => []
  | page :: rest =>
      let page_text_len := len (page_text page) in
      let page_end := current_offset + page_text_len in
      mkSpan current_offset page_end (page_number page)
      :: build_loop n (i + 1)
           (if i <? n - 1 then page_end + 2 else page_end) rest
  end.

(** [page_map = []; if pages: ...]: no map for [None] and for [[]]. *)
Definition build (pages : option (list Page)) : list PageSpan :=
  match pages with
  | None => []
  | Some ps => build_loop (Z.of_nat (List.length ps)) 0 0 ps
  end.

(** The half-open intersection test of every strategy:
    [start < p["end"] and chunk_end > p["start"]]. *)
Definition intersects (start chunk_end : Z) (p : PageSpan) : bool :=
  (start <? pm_end p) && (chunk_end >? pm_start p).

(** The page numbers of the entries a span intersects, in map order. *)
Definition pages_of (page_map : list PageSpan) (start chunk_end : Z)
  : list Z :=
  map pm_page_number (filter (intersects start chunk_end) page_map).

(** The document text the extraction layer builds from the pages:
    ["\n\n".join([p["text"] for p in pages])]. *)
Definition document_text (pages : list Page) : str :=
  join para_break (map page_text pages).

End PageOffsetMap.

(** ** Character strategy *)

Module Character.

Record CharacterChunkingStrategy :=
  mk { chunk_size : Z; chunk_overlap : Z }.

(** [__init__(self, chunk_size=1000, chunk_overlap=200)] stores its
    arguments. *)
Definition init (chunk_size chunk_overlap : Z) : CharacterChunkingStrategy :=
  mk chunk_size chunk_overlap.

(** The [while start < text_len] loop.  Every emitted chunk is paired
    with the value of [start] at which it was cut (the chunk dict itself
    does not store it).  [None]: the budget of iterations is used up and
    the loop is still running. *)
Fixpoint chunk_loop (fuel : nat) (self : CharacterChunkingStrategy)
    (text : str) (page_map : list PageSpan)
    (start : Z) (chunks : list (Z * Chunk)) : option (list (Z * Chunk)) :=
  match fuel with
  | O => None
  | S fuel' =>
      let text_len := len text in
      if start <? text_len then
        let end_ := start + chunk_size self in
        let chunk_text := slice text start end_ in
        let chunk_end := start + len chunk_text in
        let chunk_pages := PageOffsetMap.pages_of page_map start chunk_end in
        let chunks' := chunks ++ [(start, mkChunk chunk_text (Some chunk_pages))] in
        if end_ >=? text_len then Some chunks'
        else chunk_loop fuel' self text page_map
               (start + (chunk_size self - chunk_overlap self)) chunks'
      else Some chunks
  end.

(** [chunk(self, text, pages)] with the cut positions, run for at most
    [fuel] iterations. *)
Definition chunk_spans (fuel : nat) (self : CharacterChunkingStrategy)
    (text : str) (pages : option (list Page)) : option (list (Z * Chunk)) :=
  if negb (truthy text) then Some []
  else chunk_loop fuel self text (PageOffsetMap.build pages) 0 [].

(** [chunk(self, text, pages)], run for at most [fuel] iterations. *)
Definition chunk (fuel : nat) (self : CharacterChunkingStrategy)
    (text : str) (pages : option (list Page)) : option (list Chunk) :=
  option_map (map snd) (chunk_spans fuel self text pages).

End Character.

(** ** Paragraph strategy *)

Module Paragraph.

Record ParagraphChunkingStrategy := mk { min_chunk_size : Z }.

Definition init (min_chunk_size : Z) : ParagraphChunkingStrategy :=
  mk min_chunk_size.

(** The loop state: [chunks], [current_chunk_text],
    [current_chunk_start] and [current_pos]. *)
Record state := mkState {
  chunks : list Chunk;
  current_chunk_text : str;
  current_chunk_start : Z;
  current_pos : Z
}.

(** "Finalize current chunk": the chunk dict of the running text. *)
Definition finalize (page_map : list PageSpan) (st : state) : Chunk :=
  let chunk_end := current_chunk_start st + len (current_chunk_text st) in
  mkChunk (current_chunk_text st)
    (Some (PageOffsetMap.pages_of page_map (current_chunk_start st) chunk_end)).

(** One iteration of [for i, p in enumerate(raw_paragraphs)]. *)
Definition step (self : ParagraphChunkingStrategy)
    (page_map : list PageSpan) (st : state) (p : str) : state :=
  let p_len := len p in
  if negb (truthy (strip p)) then
    mkState (chunks st) (current_chunk_text st) (current_chunk_start st)
      (current_pos st + (p_len + 2))
  else if negb (truthy (current_chunk_text st)) then
    mkState (chunks st) p (current_pos st) (current_pos st + (p_len + 2))
  else if len (current_chunk_text st) + 2 + len p <? min_chunk_size self then
    mkState (chunks st) (current_chunk_text st ++ para_break ++ p)
      (current_chunk_start st) (current_pos st + (p_len + 2))
  else
    mkState (chunks st ++ [finalize page_map st]) p (current_pos st)
      (current_pos st + (p_len + 2)).

Definition chunk (self : ParagraphChunkingStrategy)
    (text : str) (pages : option (list Page)) : list Chunk :=
  if negb (truthy text) then []
  else
    let page_map := PageOffsetMap.build pages in
    let raw_paragraphs := split text para_break in
    let st := fold_left (step self page_map) raw_paragraphs
                (mkState [] [] 0 0) in
    if truthy (current_chunk_text st)
    then chunks st ++ [finalize page_map st]
    else chunks st.

End Paragraph.

(** ** Sentence strategy *)

Module Sentence.

Record SentenceChunkingStrategy :=
  mk { sentences_per_chunk : Z; overlap : Z }.

Definition init (sentences_per_chunk overlap : Z)
  : SentenceChunkingStrategy := mk sentences_per_chunk overlap.

(** The character class [[.!?]]. *)
Definition is_terminal (c : ascii) : bool :=
  let n := nat_of_ascii c in ((n =? 46) || (n =? 33) || (n =? 63))%nat.

(** [re.split] on the pattern [(?<=[.!?])\s+]: a separator is a maximal
    run of whitespace that follows a terminal mark.  With [capture] the
    separators are returned between the pieces, as the capturing group
    of [((?<=[.!?])\s+)] makes [re.split] do.  [in_sep] tells whether
    [acc] (in reverse) is a separator being read, [prev_terminal]
    whether the previous character is a terminal mark. *)
Fixpoint re_split_go (capture in_sep prev_terminal : bool) (acc : str)
    (s : str) : list str :=
  match s with
  | [] =>
      if in_sep then (if capture then [rev acc; []] else [[]])
      else [rev acc]
  | c :: s' =>
      if in_sep then
        if is_space c
        then re_split_go capture true false (c :: acc) s'
        else (if capture then [rev acc] else [])
             ++ re_split_go capture false (is_terminal c) [c] s'
      else
        if prev_terminal && is_space c
        then rev acc :: re_split_go capture true false [c] s'
        else re_split_go capture false (is_terminal c) (c :: acc) s'
  end.

Definition re_split (capture : bool) (text : str) : list str :=
  re_split_go capture false false [] text.

(** [_split_sentences] *)
Definition _split_sentences (text : str) : list str :=
  map strip (filter (fun s => truthy (strip s)) (re_split false text)).

(** A sentence with its offsets: [{"text", "start", "end"}]. *)
Record sentence := mkSentence { s_text : str; s_start : Z; s_end : Z }.

(** [re.match(r'\s+', part)] as a truth value. *)
Definition re_match_spaces (part : str) : bool :=
  match part with [] => false | c :: _ => is_space c end.

(** One iteration of [for part in parts] on ([sentences], [current_pos]). *)
Definition step (st : list sentence * Z) (part : str) : list sentence * Z :=
  let '(sentences, current_pos) := st in
  if negb (truthy part) then st
  else if negb (truthy (strip part)) && re_match_spaces part then
    (sentences, current_pos + len part)
  else
    (if truthy (strip part)
     then sentences ++ [mkSentence (strip part) current_pos
                          (current_pos + len part)]
     else sentences,
     current_pos + len part).

Definition sentences_of (text : str) : list sentence :=
  fst (fold_left step (re_split true text) ([], 0)).

(** [range(0, stop, step)] for [step >= 1]. *)
Definition py_range (stop step : Z) : list Z :=
  map (fun k => Z.of_nat k * step)
      (seq 0 (Z.to_nat ((stop + step - 1) / step))).

Definition dummy : sentence := mkSentence [] 0 0.

(** The body of [for i in range(0, len(sentences), stride)], with its
    [break] on an empty group. *)
Fixpoint window_loop (self : SentenceChunkingStrategy)
    (page_map : list PageSpan) (sentences : list sentence)
    (indices : list Z) (chunks : list Chunk) : list Chunk :=
  match indices with
  | [] => chunks
  | i :: indices' =>
      let group := slice sentences i (i + sentences_per_chunk self) in
      match group with
      | [] => chunks
      | _ :: _ =>
          let chunk_text := join [SP] (map s_text group) in
          let group_start := s_start (hd dummy group) in
          let group_end := s_end (last group dummy) in
          let chunk_pages :=
            PageOffsetMap.pages_of page_map group_start group_end in
          window_loop self page_map sentences indices'
            (chunks ++ [mkChunk chunk_text (Some chunk_pages)])
      end
  end.

Definition chunk (self : SentenceChunkingStrategy)
    (text : str) (pages : option (list Page)) : list Chunk :=
  if negb (truthy text) then []
  else
    let page_map := PageOffsetMap.build pages in
    let sentences := sentences_of text in
    match sentences with
    | [] => []
    | _ :: _ =>
        if Z.of_nat (List.length sentences) <=? sentences_per_chunk self then
          let chunk_start := s_start (hd dummy sentences) in
          let chunk_end := s_end (last sentences dummy) in
          [mkChunk text
             (Some (PageOffsetMap.pages_of page_map chunk_start chunk_end))]
        else
          let stride := sentences_per_chunk self - overlap self in
          let stride := if stride <? 1 then 1 else stride in
          window_loop self page_map sentences
            (py_range (Z.of_nat (List.length sentences)) stride) []
    end.

End Sentence.

(** ** Exceptions and outcomes *)

(** The exceptions the modelled code can raise: the built-in ones, and the
    classes of [backend/utils/exceptions.py]. *)
Inductive exn : Type :=
| ValueError (message : string)
| IndexError
| ConfigurationError (message : string)
| ValidationError (message : string)
| ProviderError (message : string).

(** The outcome of a call that recurses or loops on a budget. *)
Inductive run (A : Type) : Type :=
| Done (a : A)
| Raise (e : exn)
| OutOfFuel.

Arguments Done {A} a.
Arguments Raise {A} e.
Arguments OutOfFuel {A}.

Definition bind {A B : Type} (m : run A) (k : A -> run B) : run B :=
  match m with
  | Done a => k a
  | Raise e => Raise e
  | OutOfFuel => OutOfFuel
  end.

Notation "x <- m ;; k" := (bind m (fun x => k))
  (at level 61, m at next level, right associativity).

(** ** Recursive strategy *)

Module Recursive.

Record RecursiveChunkingStrategy :=
  mk { chunk_size : Z; chunk_overlap : Z; separators : list str }.

Definition default_separators : list str := [para_break; [LF]; [SP]; []].

(** [self.separators = separators or ["\n\n", "\n", " ", ""]] *)
Definition init (chunk_size chunk_overlap : Z)
    (separators : option (list str)) : RecursiveChunkingStrategy :=
  mk chunk_size chunk_overlap
     match separators with
     | None | Some [] => default_separators
     | Some (s :: l) => s :: l
     end.

(** The characters [re.escape] puts a backslash before:
    [()[]{}?*+-|^$\.&~#] and SPACE, TAB, LF, CR, VT, FF. *)
Definition special_chars : list nat :=
  [40; 41; 91; 93; 123; 125; 63; 42; 43; 45; 124; 94; 36; 92; 46; 38; 126;
   35; 32; 9; 10; 13; 11; 12]%nat.

(** [_regex_escape], that is [re.escape]. *)
Fixpoint _regex_escape (s : str) : str :=
  match s with
  | [] => []
  | c :: s' =>
      if existsb (Nat.eqb (nat_of_ascii c)) special_chars
      then BACKSLASH :: c :: _regex_escape s'
      else c :: _regex_escape s'
  end.

(** [for i, sep in enumerate(separators)]: the separator to use and
    [new_separators]; [separator] is the value set before the loop. *)
Fixpoint select_loop (text : str) (seps : list str) (separator : str)
  : str * list str :=
  match seps with
  | [] => (separator, [])
  | sep :: rest =>
      if eqb sep [] then ([], [])
      else if contains (_regex_escape sep) text || contains sep text
      then (sep, rest)
      else select_loop text rest separator
  end.

(** [for item in reversed(current_chunk)], on ([overlap_chunk],
    [overlap_len]). *)
Fixpoint overlap_loop (self : RecursiveChunkingStrategy) (separator : str)
    (items : list str) (overlap_chunk : list str) (overlap_len : Z)
  : list str * Z :=
  match items with
  | [] => (overlap_chunk, overlap_len)
  | item :: items' =>
      if overlap_len + len item <? chunk_overlap self
      then overlap_loop self separator items' (item :: overlap_chunk)
             (overlap_len + (len item + len separator))
      else (overlap_chunk, overlap_len)
  end.

(** [doc = separator.join(current_chunk); if doc.strip():
    good_splits.append(doc)] *)
Definition flush (separator : str) (good_splits current_chunk : list str)
  : list str :=
  let doc := join separator current_chunk in
  if truthy (strip doc) then good_splits ++ [doc] else good_splits.

(** [for split in splits], on ([good_splits], [current_chunk],
    [current_length]); [recurse] is the recursive call of
    [_split_text] on [new_separators]. *)
Fixpoint merge_loop (self : RecursiveChunkingStrategy)
    (recurse : str -> run (list str))
    (separator : str) (new_separators : list str) (splits : list str)
    (good_splits current_chunk : list str) (current_length : Z)
  : run (list str * list str * Z) :=
  match splits with
  | [] => Done (good_splits, current_chunk, current_length)
  | split :: splits' =>
      let split_len := len split in
      if current_length + split_len
         + (if negb (Nat.eqb (List.length current_chunk) 0)
            then len separator else 0) >? chunk_size self
      then
        let '(good_splits, current_chunk, current_length) :=
          match current_chunk with
          | [] => (good_splits, current_chunk, current_length)
          | _ :: _ =>
              let '(overlap_chunk, overlap_len) :=
                overlap_loop self separator (rev current_chunk) [] 0 in
              (flush separator good_splits current_chunk,
               overlap_chunk, overlap_len)
          end in
        if (split_len >? chunk_size self)
           && negb (Nat.eqb (List.length new_separators) 0)
        then
          sub_chunks <- recurse split ;;
          merge_loop self recurse separator new_separators splits'
            (good_splits ++ sub_chunks) [] 0
        else
          merge_loop self recurse separator new_separators splits'
            good_splits (current_chunk ++ [split])
            (current_length + split_len)
      else
        let current_length :=
          match current_chunk with
          | [] => current_length
          | _ :: _ => current_length + len separator
          end in
        merge_loop self recurse separator new_separators splits'
          good_splits (current_chunk ++ [split]) (current_length + split_len)
  end.

(** [_split_text(self, text, separators)]; every nested call spends one
    unit of [fuel]. *)
Fixpoint _split_text (fuel : nat) (self : RecursiveChunkingStrategy)
    (text : str) (separators : list str) : run (list str) :=
  match fuel with
  | O => OutOfFuel
  | S fuel' =>
      match separators with
      | [] => Raise IndexError
      | _ :: _ =>
          let '(separator, new_separators) :=
            select_loop text separators (last separators []) in
          let splits :=
            if truthy separator then split text separator
            else map (fun c => [c]) text in
          st <- merge_loop self (fun s => _split_text fuel' self s new_separators)
                  separator new_separators splits [] [] 0 ;;
          let '(good_splits, current_chunk, _) := st in
          match current_chunk with
          | [] => Done good_splits
          | _ :: _ => Done (flush separator good_splits current_chunk)
          end
      end
  end.

(** [for chunk_text in final_chunks], on ([results],
    [current_search_start]). *)
Definition locate (text : str) (page_map : list PageSpan)
    (st : list Chunk * Z) (chunk_text : str) : list Chunk * Z :=
  let '(results, current_search_start) := st in
  let start_index := find text chunk_text current_search_start in
  let start_index :=
    if start_index =? -1 then find text chunk_text 0 else start_index in
  if negb (start_index =? -1) then
    let chunk_end := start_index + len chunk_text in
    (results ++ [mkChunk chunk_text
                   (Some (PageOffsetMap.pages_of page_map start_index chunk_end))],
     Z.max current_search_start (start_index + 1))
  else (results ++ [mkChunk chunk_text None], current_search_start).

Definition chunk (fuel : nat) (self : RecursiveChunkingStrategy)
    (text : str) (pages : option (list Page)) : run (list Chunk) :=
  if negb (truthy text) then Done []
  else
    final_chunks <- _split_text fuel self text (separators self) ;;
    let page_map := PageOffsetMap.build pages in
    Done (fst (fold_left (locate text page_map) final_chunks ([], 0))).

End Recursive.

(** ** Semantic strategy *)

(** An embedding vector.  A Python float is taken at its exact rational
    value, which is what [>=] compares. *)
Definition vector := list Q.

(** The embedding collaborator, seen through [embed_batch]. *)
Record EmbeddingProvider := mkProvider {
  embed_batch : list str -> list vector
}.

Module Semantic.

Record SemanticChunkingStrategy :=
  mk { embedding_provider : EmbeddingProvider; threshold : Q }.

Definition init (embedding_provider : EmbeddingProvider) (threshold : Q)
  : SemanticChunkingStrategy := mk embedding_provider threshold.

Definition _split_sentences (text : str) : list str :=
  Sentence._split_sentences text.

(** [if pm["page_number"] not in chunk_pages: chunk_pages.append(...)] *)
Fixpoint append_new (chunk_pages : list Z) (spans : list PageSpan)
  : list Z :=
  match spans with
  | [] => chunk_pages
  | pm :: spans' =>
      append_new
        (if existsb (Z.eqb (pm_page_number pm)) chunk_pages
         then chunk_pages
         else chunk_pages ++ [pm_page_number pm])
        spans'
  end.

(** [_get_chunk_metadata]: [None] is the empty dict. *)
Definition _get_chunk_metadata (chunk_text full_text : str)
    (pages : option (list Page)) : option (list Z) :=
  match pages with
  | None | Some [] => None
  | Some (_ :: _) =>
      let page_map := PageOffsetMap.build pages in
      let start_index := find full_text chunk_text 0 in
      if start_index =? -1 then None
      else
        let end_index := start_index + len chunk_text in
        Some (append_new []
                (filter (PageOffsetMap.intersects start_index end_index)
                        page_map))
  end.

Section Similarity.

(** [sklearn.metrics.pairwise.cosine_similarity] on two row vectors. *)
Variable cosine_similarity : vector -> vector -> Q.

(** [for i in range(1, len(sentences))], on the groups already closed
    and [current_chunk_sentences].  The groups are kept as lists of
    sentences; [chunk] joins them. *)
Fixpoint group_loop (self : SemanticChunkingStrategy)
    (sentences : list str) (embeddings : list vector)
    (indices : list nat)
    (groups : list (list str)) (current_chunk_sentences : list str)
  : exn + (list (list str) * list str) :=
  match indices with
  | [] => inr (groups, current_chunk_sentences)
  | i :: indices' =>
      match nth_error embeddings (i - 1), nth_error embeddings i,
            nth_error sentences i with
      | Some prev_embedding, Some curr_embedding, Some sentence_i =>
          let similarity :=
            cosine_similarity prev_embedding curr_embedding in
          if Qle_bool (threshold self) similarity
          then group_loop self sentences embeddings indices'
                 groups (current_chunk_sentences ++ [sentence_i])
          else group_loop self sentences embeddings indices'
                 (groups ++ [current_chunk_sentences]) [sentence_i]
      | _, _, _ => inl IndexError
      end
  end.

(** The sentence groups of [chunk], the last one flushed as well. *)
Definition groups_of (self : SemanticChunkingStrategy)
    (sentences : list str) (embeddings : list vector)
  : exn + list (list str) :=
  match group_loop self sentences embeddings
          (seq 1 (List.length sentences - 1))
          [] (firstn 1 sentences) with
  | inl e => inl e
  | inr (groups, current_chunk_sentences) =>
      inr (match current_chunk_sentences with
           | [] => groups
           | _ :: _ => groups ++ [current_chunk_sentences]
           end)
  end.

Definition make_chunk (text : str) (pages : option (list Page))
    (group : list str) : Chunk :=
  let chunk_text := join [SP] group in
  mkChunk chunk_text (_get_chunk_metadata chunk_text text pages).

Definition chunk (self : SemanticChunkingStrategy)
    (text : str) (pages : option (list Page)) : exn + list Chunk :=
  if negb (truthy text) then inr []
  else
    let sentences := _split_sentences text in
    if (List.length sentences <? 2)%nat
    then inr [mkChunk text (_get_chunk_metadata text text pages)]
    else
      let embeddings := embed_batch (embedding_provider self) sentences in
      match groups_of self sentences embeddings with
      | inl e => inl e
      | inr groups => inr (map (make_chunk text pages) groups)
      end.

End Similarity.

End Semantic.

(** ** Hierarchical strategy (constructor only) *)

Module Hierarchical.

Record HierarchicalChunkingStrategy := mk { split_level : Z }.

Definition init (split_level : Z) : HierarchicalChunkingStrategy :=
  mk split_level.

End Hierarchical.

(** ** The strategy factory *)

Module ChunkFactory.

(** The [config] dict: each recognized option is present or absent. *)
Record Config := mkConfig {
  cfg_chunk_size : option Z;
  cfg_chunk_overlap : option Z;
  cfg_min_chunk_size : option Z;
  cfg_sentences_per_chunk : option Z;
  cfg_overlap : option Z;
  cfg_threshold : option Q;
  cfg_separators : option (list str);
  cfg_split_level : option Z
}.

(** [{}] *)
Definition empty : Config :=
  mkConfig None None None None None None None None.

(** [config.get(key, default)] *)
Definition get {A : Type} (field : option A) (default : A) : A :=
  match field with Some v => v | None => default end.

Inductive ChunkingStrategy : Type :=
| CharacterStrategy (s : Character.CharacterChunkingStrategy)
| ParagraphStrategy (s : Paragraph.ParagraphChunkingStrategy)
| SentenceStrategy (s : Sentence.SentenceChunkingStrategy)
| SemanticStrategy (s : Semantic.SemanticChunkingStrategy)
| RecursiveStrategy (s : Recursive.RecursiveChunkingStrategy)
| HierarchicalStrategy (s : Hierarchical.HierarchicalChunkingStrategy).

Definition get_strategy (strategy_type : string) (config : option Config)
    (embedding_provider : option EmbeddingProvider)
  : exn + ChunkingStrategy :=
  let config := match config with Some c => c | None => empty end in
  if String.eqb strategy_type "character" then
    inr (CharacterStrategy
           (Character.init (get (cfg_chunk_size config) 1000)
                           (get (cfg_chunk_overlap config) 200)))
  else if String.eqb strategy_type "paragraph" then
    inr (ParagraphStrategy
           (Paragraph.init (get (cfg_min_chunk_size config) 100)))
  else if String.eqb strategy_type "sentence" then
    inr (SentenceStrategy
           (Sentence.init (get (cfg_sentences_per_chunk config) 5)
                          (get (cfg_overlap config) 1)))
  else if String.eqb strategy_type "semantic" then
    match embedding_provider with
    | None =>
        inl (ValueError "Embedding provider required for semantic chunking")
    | Some provider =>
        inr (SemanticStrategy
               (Semantic.init provider (get (cfg_threshold config) (8 # 10))))
    end
  else if String.eqb strategy_type "recursive" then
    inr (RecursiveStrategy
           (Recursive.init (get (cfg_chunk_size config) 1000)
                           (get (cfg_chunk_overlap config) 200)
                           (Some (get (cfg_separators config)
                                      Recursive.default_separators))))
  else if String.eqb strategy_type "hierarchical" then
    inr (HierarchicalStrategy
           (Hierarchical.init (get (cfg_split_level config) 2)))
  else
    inl (ValueError ("Unknown strategy type: " ++ strategy_type)).

End ChunkFactory.

(** ** The strategy interface: names and default configurations *)

Module StrategyInterface.

Import ChunkFactory.

(** [get_strategy_name] of each of the six classes. *)
Definition get_strategy_name (s : ChunkingStrategy) : string :=
  match s with
  | CharacterStrategy _ => "character"
  | ParagraphStrategy _ => "paragraph"
  | SentenceStrategy _ => "sentence"
  | SemanticStrategy _ => "semantic"
  | RecursiveStrategy _ => "recursive"
  | HierarchicalStrategy _ => "hierarchical"
  end.

(** [get_default_config] of each of the six classes, as a [config]
    dict. *)
Definition get_default_config (s : ChunkingStrategy) : Config :=
  match s with
  | CharacterStrategy _ =>
      mkConfig (Some 1000) (Some 200) None None None None None None
  | ParagraphStrategy _ =>
      mkConfig None None (Some 100) None None None None None
  | SentenceStrategy _ =>
      mkConfig None None None (Some 5) (Some 1) None None None
  | SemanticStrategy _ =>
      mkConfig None None None None None (Some (8 # 10)) None None
  | RecursiveStrategy _ =>
      mkConfig (Some 1000) (Some 200) None None None None
        (Some [para_break; [LF]; [SP]; []]) None
  | HierarchicalStrategy _ =>
      mkConfig None None None None None None None (Some 2)
  end.

End StrategyInterface.

(** ** The metrics of the chunk endpoint *)

Module Metrics.

(** The [metrics] dict of [chunk_text] in [main.py].  The quotient of
    [avg_size] is taken at its exact rational value. *)
Record metrics := mkMetrics {
  total_chunks : Z;
  avg_size : Q;
  min_size : Z;
  max_size : Z
}.

(** [sizes = [len(c["text"]) for c in chunks]] *)
Definition sizes (chunks : list Chunk) : list Z :=
  map (fun c => len (text c)) chunks.

(** [sum(sizes)] *)
Definition py_sum (l : list Z) : Z := fold_left Z.add l 0.

(** [min(sizes)] and [max(sizes)] on a non-empty list, from its head. *)
Definition py_min (x : Z) (l : list Z) : Z := fold_left Z.min l x.
Definition py_max (x : Z) (l : list Z) : Z := fold_left Z.max l x.

Definition calculate (chunks : list Chunk) : metrics :=
  match sizes chunks with
  | [] => mkMetrics (Z.of_nat (List.length chunks)) 0 0 0
  | x :: l =>
      mkMetrics (Z.of_nat (List.length chunks))
        (inject_Z (py_sum (x :: l))
         / inject_Z (Z.of_nat (List.length (x :: l))))%Q
        (py_min x l) (py_max x l)
  end.

End Metrics.

(** ** Notions used to state the properties *)

(** A relation holds between every two neighbours of a list. *)
Fixpoint consecutive {A : Type} (R : A -> A -> Prop) (l : list A) : Prop :=
  match l with
  | a :: (b :: _) as tl => R a b /\ consecutive R tl
  | _ => True
  end.

Module PageMapSpec.

(** The offsets of the pages without the index bookkeeping: a page
    followed by another one is followed by the separator. *)
Fixpoint spans_from (off : Z) (pages : list Page) : list PageSpan :=
  match pages with
  | [] => []
  | page :: rest =>
      let page_end := off + len (page_text page) in
      mkSpan off page_end (page_number page)
      :: spans_from (match rest with [] => page_end | _ :: _ => page_end + 2 end)
           rest
  end.

(** [total_length]: the length of the concatenated text. *)
Definition total_length (pages : list Page) : Z :=
  len (PageOffsetMap.document_text pages).

(** Offset [i] lies inside an interval of the map. *)
Definition covered (m : list PageSpan) (i : Z) : Prop :=
  exists e, In e m /\ pm_start e <= i < pm_end e.

(** Offset [i] lies between two neighbouring intervals of the map. *)
Definition in_gap (m : list PageSpan) (i : Z) : Prop :=
  exists pre a b post,
    m = pre ++ a :: b :: post /\ pm_end a <= i < pm_start b.

(** Each interval is as long as its page's text and carries its number. *)
Definition sized (m : list PageSpan) (pages : list Page) : Prop :=
  Forall2 (fun e p => pm_end e - pm_start e = len (page_text p)
                      /\ pm_page_number e = page_number p) m pages.

(** The invariant in the words of the data model: contiguous,
    non-overlapping, covering [[0, total_length)], and sized. *)
Definition stated_invariant (pages : list Page) : Prop :=
  let m := PageOffsetMap.build (Some pages) in
  consecutive (fun a b => pm_end a = pm_start b) m
  /\ consecutive (fun a b => pm_end a <= pm_start b) m
  /\ (forall i, 0 <= i < total_length pages -> covered m i)
  /\ sized m pages.

(** The invariant the construction has: neighbours are two apart, the
    first interval starts at 0, the last ends at [total_length], and an
    offset lies in an interval or in a separator. *)
Definition separated_invariant (pages : list Page) : Prop :=
  let m := PageOffsetMap.build (Some pages) in
  sized m pages
  /\ consecutive (fun a b => pm_start b = pm_end a + 2) m
  /\ consecutive (fun a b => pm_end a <= pm_start b) m
  /\ option_map pm_start (hd_error m) = Some 0
  /\ option_map pm_end (hd_error (rev m)) = Some (total_length pages)
  /\ (forall i, 0 <= i < total_length pages -> covered m i \/ in_gap m i).

Definition two_pages : list Page :=
  [mkPage 1 (py "AAAA"); mkPage 2 (py "BBBB")].

End PageMapSpec.

Module CharacterSpec.

(** Every offset of [text] lies in the span
    [[start, start + len(chunk_text))] of an emitted chunk. *)
Definition covers (spans : list (Z * Chunk)) (txt : str) : Prop :=
  forall i, 0 <= i < len txt ->
    exists start c, In (start, c) spans /\ start <= i < start + len (text c).

(** Each chunk is the window of [chunk_size] characters at its start. *)
Definition windows (self : Character.CharacterChunkingStrategy)
    (spans : list (Z * Chunk)) (txt : str) : Prop :=
  forall start c, In (start, c) spans ->
    0 <= start < len txt
    /\ text c = slice txt start (start + Character.chunk_size self).

End CharacterSpec.

Module FactorySpec.

Import ChunkFactory.

(** The strategy names of the interface. *)
Definition recognized_names : list string :=
  ["character"; "paragraph"; "sentence"; "recursive"; "hierarchical";
   "semantic"]%string.

Definition recognized (name : string) : bool :=
  existsb (String.eqb name) recognized_names.

(** The two conditions of failure: an unknown name, or ["semantic"]
    without an embedding provider. *)
Definition rejected (name : string) (provider : option EmbeddingProvider)
  : bool :=
  negb (recognized name)
  || (String.eqb name "semantic"
      && match provider with None => true | Some _ => false end).

Definition is_validation_error {A : Type} (r : exn + A) : bool :=
  match r with inl (ValidationError _) => true | _ => false end.

Definition is_configuration_error {A : Type} (r : exn + A) : bool :=
  match r with inl (ConfigurationError _) => true | _ => false end.

Definition is_value_error {A : Type} (r : exn + A) : bool :=
  match r with inl (ValueError _) => true | _ => false end.

Definition is_strategy {A : Type} (r : exn + A) : bool :=
  match r with inr _ => true | inl _ => false end.

(** C2 in the words of the error taxonomy: a non-positive [chunk_size]
    makes the construction fail with a ValidationError. *)
Definition stated_validation (config : Config) : Prop :=
  (exists n, cfg_chunk_size config = Some n /\ n <= 0) ->
  is_validation_error (get_strategy "character" (Some config) None) = true.

(** C9 in the words of the interface: failure is a ConfigurationError,
    exactly in the two cases. *)
Definition stated_configuration_error (name : string)
    (config : option Config) (provider : option EmbeddingProvider) : Prop :=
  is_configuration_error (get_strategy name config provider)
  = rejected name provider.

(** A configuration with [chunk_size = 0]. *)
Definition zero_size_config : Config :=
  mkConfig (Some 0) None None None None None None None.

End FactorySpec.

Module ParagraphSpec.

(** The text of the grouping example. *)
Definition first_paragraph : str :=
  py "This is sentence one. This is sentence two. This is sentence three.".

Definition second_paragraph : str :=
  py "This is a new paragraph. It has some more text.".

Definition example_text : str :=
  first_paragraph ++ para_break ++ second_paragraph.

End ParagraphSpec.

Module SentenceSpec.

(** A text that consists of whitespace only. *)
Definition all_space (s : str) : bool := forallb is_space s.

(** The page numbers of the span from the first sentence's start to the
    last sentence's end. *)
Definition span_pages (pages : option (list Page))
    (sentences : list Sentence.sentence) : list Z :=
  PageOffsetMap.pages_of (PageOffsetMap.build pages)
    (Sentence.s_start (hd Sentence.dummy sentences))
    (Sentence.s_end (last sentences Sentence.dummy)).

(** C7 in the words of the special case: a non-empty input with at most
    [sentences_per_chunk] sentences comes back as one chunk, the input
    verbatim. *)
Definition stated_single_chunk (self : Sentence.SentenceChunkingStrategy)
    (txt : str) (pages : option (list Page)) : Prop :=
  txt <> [] ->
  Z.of_nat (List.length (Sentence.sentences_of txt))
    <= Sentence.sentences_per_chunk self ->
  Sentence.chunk self txt pages
  = [mkChunk txt (Some (span_pages pages (Sentence.sentences_of txt)))].

End SentenceSpec.

Module RecursiveSpec.

(** Every chunk's text is within [chunk_size]. *)
Definition bounded (self : Recursive.RecursiveChunkingStrategy)
    (chunks : list Chunk) : Prop :=
  Forall (fun c => len (text c) <= Recursive.chunk_size self) chunks.

(** None of the non-empty default separators occurs in the text. *)
Definition unsplittable (txt : str) : Prop :=
  contains para_break txt = false
  /\ contains [LF] txt = false
  /\ contains [SP] txt = false.

End RecursiveSpec.

Module SemanticSpec.



(** A provider for examples: the embedding of a sentence is its length. *)
Definition length_provider : EmbeddingProvider :=
  mkProvider (map (fun s => [inject_Z (len s)])).

(** A similarity for examples: 1 on equal vectors, 0 otherwise. *)
Definition same_vector (a b : vector) : Q :=
  match a, b with
  | [x], [y] => if Qeq_bool x y then 1%Q else 0%Q
  | _, _ => 0%Q
  end.

(** Two sentences of equal length, then a longer one. *)
Definition three_sentences : str := py "Aa. Bb. Cccc.".

End SemanticSpec.

Module CharacterShape.

(** The distance between the starts of two neighbouring chunks. *)
Definition stride (self : Character.CharacterChunkingStrategy) : Z :=
  Character.chunk_size self - Character.chunk_overlap self.

(** The first [n] multiples of [step]. *)
Definition multiples (n : nat) (step : Z) : list Z :=
  map (fun k => Z.of_nat k * step) (seq 0 n).

(** The layout of the chunks of a text: they start at the multiples of
    the stride, each is the window at its start, every chunk before the
    last is [chunk_size] long, and the last one ends where the text
    ends. *)
Definition layout (self : Character.CharacterChunkingStrategy)
    (txt : str) (spans : list (Z * Chunk)) : Prop :=
  map fst spans = multiples (List.length spans) (stride self)
  /\ (forall start c, In (start, c) spans ->
        text c = slice txt start (start + Character.chunk_size self)
        /\ 1 <= len (text c) <= Character.chunk_size self)
  /\ (forall pre x post, spans = pre ++ x :: post -> post <> [] ->
        len (text (snd x)) = Character.chunk_size self)
  /\ (forall pre x, spans = pre ++ [x] ->
        fst x + len (text (snd x)) = len txt).

End CharacterShape.

Module ParagraphShape.

(** A paragraph that survives [strip], the ones the loop keeps. *)
Definition nonblank (p : str) : bool := truthy (strip p).

(** The running chunk, when there is one. *)
Definition running (st : Paragraph.state) : list str :=
  if truthy (Paragraph.current_chunk_text st)
  then [Paragraph.current_chunk_text st] else [].

(** The state of the Paragraph loop after the paragraphs [done]: the
    closed chunks and the running one spell the non-blank paragraphs. *)
Definition keeps (st : Paragraph.state) (done : list str) : Prop :=
  join para_break (map text (Paragraph.chunks st) ++ running st)
  = join para_break (filter nonblank done)
  /\ (Paragraph.current_chunk_text st = [] ->
      Paragraph.chunks st = [] /\ filter nonblank done = [])
  /\ (Paragraph.current_chunk_text st <> [] -> filter nonblank done <> []).

(** A chunk text is one of the paragraphs [done] or shorter than
    [min_chunk_size]. *)
Definition single_or_small (self : Paragraph.ParagraphChunkingStrategy)
    (done : list str) (t : str) : Prop :=
  In t done \/ len t < Paragraph.min_chunk_size self.

Definition sized (self : Paragraph.ParagraphChunkingStrategy)
    (st : Paragraph.state) (done : list str) : Prop :=
  Forall (fun c => single_or_small self done (text c)) (Paragraph.chunks st)
  /\ (Paragraph.current_chunk_text st = []
      \/ single_or_small self done (Paragraph.current_chunk_text st)).

End ParagraphShape.

Module SentenceShape.

(** A sentence record points at its sentence: the offsets lie in the
    text, in order, and the text between them, stripped, is the
    sentence. *)
Definition located (txt : str) (s : Sentence.sentence) : Prop :=
  0 <= Sentence.s_start s < Sentence.s_end s
  /\ Sentence.s_end s <= len txt
  /\ strip (slice txt (Sentence.s_start s) (Sentence.s_end s))
     = Sentence.s_text s
  /\ Sentence.s_text s <> [].

(** The chunk of one sentence. *)
Definition sentence_chunk (page_map : list PageSpan) (s : Sentence.sentence)
  : Chunk :=
  mkChunk (Sentence.s_text s)
    (Some (PageOffsetMap.pages_of page_map (Sentence.s_start s)
             (Sentence.s_end s))).

End SentenceShape.

Module CharacterStated.

(** C5 in the words of the coverage property: [chunk_overlap <
    chunk_size] alone makes the spans of the chunks of a non-empty text
    cover the text. *)
Definition stated_coverage (self : Character.CharacterChunkingStrategy)
    (txt : str) : Prop :=
  Character.chunk_overlap self < Character.chunk_size self ->
  txt <> [] ->
  exists fuel spans,
    Character.chunk_spans fuel self txt None = Some spans
    /\ CharacterSpec.covers spans txt.

End CharacterStated.

Module RecursiveWindows.

(** The characters carried over from a full chunk of single characters
    to the next one: the overlap loop keeps an item while the kept
    length plus one stays below [chunk_overlap]. *)
Definition carried (self : Recursive.RecursiveChunkingStrategy) : Z :=
  Z.max 0 (Recursive.chunk_overlap self - 1).

(** The distance between the starts of two neighbouring chunks of an
    unsplittable token. *)
Definition step (self : Recursive.RecursiveChunkingStrategy) : Z :=
  Recursive.chunk_size self - carried self.

(** The window of [chunk_size] characters of the token at [start]. *)
Definition window (self : Recursive.RecursiveChunkingStrategy) (txt : str)
    (start : Z) : str :=
  slice txt start (start + Recursive.chunk_size self).

Definition nonblank (d : str) : bool := truthy (strip d).

(** The chunks of an unsplittable token: the windows at the first [S m]
    multiples of the step, the blank ones left out; every window before
    the last ends inside the token and the last one reaches its end. *)
Definition cut_into_windows (self : Recursive.RecursiveChunkingStrategy)
    (txt : str) (m : nat) (chunks : list Chunk) : Prop :=
  map text chunks
  = filter nonblank
      (map (window self txt) (CharacterShape.multiples (S m) (step self)))
  /\ (forall j, (j < m)%nat ->
        Z.of_nat j * step self + Recursive.chunk_size self < len txt)
  /\ len txt <= Z.of_nat m * step self + Recursive.chunk_size self
  /\ Z.of_nat m * step self < len txt.

(** C4 in the words of the termination property: [chunk_overlap <
    chunk_size] alone keeps the chunks of a long unsplittable token
    within [chunk_size]. *)
Definition stated_bounded (self : Recursive.RecursiveChunkingStrategy)
    (txt : str) : Prop :=
  Recursive.separators self = Recursive.default_separators ->
  Recursive.chunk_overlap self < Recursive.chunk_size self ->
  Recursive.chunk_size self < len txt ->
  RecursiveSpec.unsplittable txt ->
  exists fuel chunks,
    Recursive.chunk fuel self txt None = Done chunks
    /\ RecursiveSpec.bounded self chunks.

End RecursiveWindows.

Module SemanticEdge.

(** The embeddings have one dimension [d >= 1], as the similarity
    computation needs to be defined on every pair of them. *)
Definition uniform (d : nat) (embeddings : list vector) : Prop :=
  (1 <= d)%nat /\ Forall (fun v => List.length v = d) embeddings.

(** A provider for examples that returns an embedding for the first
    text only. *)
Definition first_only_provider : EmbeddingProvider :=
  mkProvider (fun texts => firstn 1 (map (fun s => [inject_Z (len s)]) texts)).

End SemanticEdge.

(** ** Properties of the string primitives *)

(** Settle a boolean comparison of integers by linear arithmetic. *)
Ltac cmp_true :=
  symmetry;
  first [ apply Z.ltb_lt | apply Z.leb_le
        | rewrite Z.geb_leb; apply Z.leb_le
        | rewrite Z.gtb_ltb; apply Z.ltb_lt ];
  lia.

Ltac cmp_false :=
  symmetry;
  first [ apply Z.ltb_ge | apply Z.leb_gt
        | rewrite Z.geb_leb; apply Z.leb_gt
        | rewrite Z.gtb_ltb; apply Z.ltb_ge ];
  lia.

Lemma len_nonneg (s : str) : 0 <= len s.
Proof. unfold len; lia. Qed.

Lemma len_app (a b : str) : len (a ++ b) = len a + len b.
Proof. unfold len; rewrite length_app; lia. Qed.

Lemma len_cons (c : ascii) (s : str) : len (c :: s) = 1 + len s.
Proof. unfold len; cbn [List.length]; lia. Qed.

Lemma len_nil : len [] = 0.
Proof. reflexivity. Qed.

Lemma truthy_false (s : str) : truthy s = false <-> s = [].
Proof. destruct s; cbn; split; congruence. Qed.

(** ** The page-offset map *)

Section PageMap.

Import PageMapSpec.

Lemma build_loop_spans (pages : list Page) :
  forall n i off,
    i + Z.of_nat (List.length pages) = n ->
    PageOffsetMap.build_loop n i off pages = spans_from off pages.
Proof.
  induction pages as [|p rest IH]; intros n i off Hn; cbn [PageOffsetMap.build_loop spans_from].
  - reflexivity.
  - cbn [List.length] in Hn. f_equal.
    destruct rest as [|q rest'].
    + reflexivity.
    + cbn [List.length] in Hn, IH.
      replace (i <? n - 1) with true by cmp_true.
      apply IH. lia.
Qed.

Lemma build_spans (pages : list Page) :
  PageOffsetMap.build (Some pages) = spans_from 0 pages.
Proof. cbn. apply build_loop_spans. lia. Qed.

Lemma spans_sized (pages : list Page) :
  forall off, sized (spans_from off pages) pages.
Proof.
  induction pages as [|p rest IH]; intros off; cbn [spans_from].
  - constructor.
  - constructor; [cbn; split; [lia | reflexivity] | apply IH].
Qed.

Lemma spans_separated (pages : list Page) :
  forall off,
    consecutive (fun a b => pm_start b = pm_end a + 2) (spans_from off pages).
Proof.
  induction pages as [|p rest IH]; intros off; [exact I|].
  cbn [spans_from]. destruct rest as [|q rest']; [exact I|].
  specialize (IH (off + len (page_text p) + 2)).
  cbn [spans_from] in IH |- *. split; [reflexivity | exact IH].
Qed.

Lemma consecutive_impl {A} (R S : A -> A -> Prop) (l : list A) :
  (forall a b, R a b -> S a b) -> consecutive R l -> consecutive S l.
Proof.
  intros HRS. induction l as [|a l IH]; [exact (fun H => H)|].
  destruct l as [|b l']; [exact (fun H => H)|].
  intros [Hab Hrest]. split; [apply HRS, Hab | apply IH, Hrest].
Qed.

Lemma spans_last_end (pages : list Page) :
  forall off, pages <> [] ->
    option_map pm_end (hd_error (rev (spans_from off pages)))
    = Some (off + len (join para_break (map page_text pages))).
Proof.
  induction pages as [|p rest IH]; intros off Hne; [congruence|].
  destruct rest as [|q rest'].
  - reflexivity.
  - specialize (IH (off + len (page_text p) + 2) ltac:(discriminate)).
    change (spans_from off (p :: q :: rest'))
      with (mkSpan off (off + len (page_text p)) (page_number p)
            :: spans_from (off + len (page_text p) + 2) (q :: rest')).
    change (join para_break (map page_text (p :: q :: rest')))
      with (page_text p ++ para_break ++ join para_break (map page_text (q :: rest'))).
    rewrite !len_app. change (len para_break) with 2.
    cbn [rev]. 
    remember (spans_from (off + len (page_text p) + 2) (q :: rest')) as m eqn:Hm.
    assert (Hnil : rev m <> []).
    { subst m. cbn [spans_from rev]. intros H. apply app_eq_nil in H. destruct H; discriminate. }
    destruct (rev m) as [|x xs]; [congruence|].
    cbn [app hd_error option_map] in IH |- *. rewrite IH. f_equal. lia.
Qed.

Lemma covered_cons (e : PageSpan) (m : list PageSpan) (i : Z) :
  covered m i -> covered (e :: m) i.
Proof. intros (x & Hin & Hx). exists x. split; [right; exact Hin | exact Hx]. Qed.

Lemma in_gap_cons (e : PageSpan) (m : list PageSpan) (i : Z) :
  in_gap m i -> in_gap (e :: m) i.
Proof.
  intros (pre & a & b & post & Hm & Hi).
  exists (e :: pre), a, b, post. split; [rewrite Hm; reflexivity | exact Hi].
Qed.

Lemma spans_cover (pages : list Page) :
  forall off i,
    off <= i < off + len (join para_break (map page_text pages)) ->
    covered (spans_from off pages) i \/ in_gap (spans_from off pages) i.
Proof.
  induction pages as [|p rest IH]; intros off i Hi.
  - cbn in Hi. lia.
  - destruct rest as [|q rest'].
    + left. eexists. split; [left; reflexivity|]. cbn in Hi |- *. lia.
    + change (join para_break (map page_text (p :: q :: rest')))
        with (page_text p ++ para_break ++ join para_break (map page_text (q :: rest'))) in Hi.
      rewrite !len_app in Hi. change (len para_break) with 2 in Hi.
      change (spans_from off (p :: q :: rest'))
        with (mkSpan off (off + len (page_text p)) (page_number p)
              :: spans_from (off + len (page_text p) + 2) (q :: rest')).
      destruct (Z_lt_dec i (off + len (page_text p))) as [Hlt|Hge].
      * left. eexists. split; [left; reflexivity|]. cbn. lia.
      * destruct (Z_lt_dec i (off + len (page_text p) + 2)) as [Hsep|Hnext].
        -- right. cbn [spans_from].
           eexists [], _, _, _. split; [reflexivity|]. cbn. lia.
        -- destruct (IH (off + len (page_text p) + 2) i ltac:(lia)) as [Hc|Hg].
           ++ left. apply covered_cons, Hc.
           ++ right. apply in_gap_cons, Hg.
Qed.

Lemma spans_first_start (pages : list Page) (off : Z) :
  pages <> [] ->
  option_map pm_start (hd_error (spans_from off pages)) = Some off.
Proof. destruct pages; [congruence | reflexivity]. Qed.

(** C3, as stated, fails on two pages: offset 4 of ["AAAA\n\nBBBB"] lies
    in the separator, outside both intervals [[0,4)] and [[6,10)], and
    the first interval's end is not the second one's start. *)
Lemma page_map_stated_invariant_fails :
  two_pages <> [] /\ ~ stated_invariant two_pages.
Proof.
  split; [discriminate|].
  intros (Hcontig & _). cbn in Hcontig. destruct Hcontig as [H _]. discriminate H.
Qed.

(** C3, amended: for every non-empty page list the map has one interval
    per page with [end - start = len(page.text)], neighbouring intervals
    are exactly the 2-character separator apart (hence disjoint), the
    first starts at 0, the last ends at [total_length], and every offset
    of [[0, total_length)] lies in an interval or in a separator. *)
Theorem page_map_separated_invariant (pages : list Page) :
  pages <> [] -> separated_invariant pages.
Proof.
  intros Hne. unfold separated_invariant. rewrite build_spans.
  repeat split.
  - apply spans_sized.
  - apply spans_separated.
  - apply consecutive_impl with (2 := spans_separated pages 0).
    intros a b ->. lia.
  - apply spans_first_start, Hne.
  - rewrite spans_last_end by exact Hne. reflexivity.
  - intros i Hi. apply spans_cover. exact Hi.
Qed.

Lemma page_map_separated_invariant_witness :
  two_pages <> [] /\ separated_invariant two_pages.
Proof.
  split; [discriminate | apply page_map_separated_invariant; discriminate].
Defined.

End PageMap.

(** ** Character strategy *)

Section CharacterProofs.

Import Character CharacterSpec.

Lemma slice_window_len (txt : str) (start size : Z) :
  0 <= start < len txt -> 0 < size ->
  len (slice txt start (start + size))
  = Z.min (start + size) (len txt) - start.
Proof.
  intros Hs Hsize. unfold slice, clamp_index, len in *.
  replace (start <? 0) with false by cmp_false.
  replace (start + size <? 0) with false by cmp_false.
  replace (Z.min start (Z.of_nat (List.length txt)) <?
           Z.min (start + size) (Z.of_nat (List.length txt)))
    with true by cmp_true.
  rewrite length_firstn, length_skipn. lia.
Qed.

(** With [chunk_overlap >= chunk_size] the cursor never moves forward,
    and on a text longer than [chunk_size] the [break] is never taken:
    no budget lets the loop finish. *)
Lemma chunk_loop_stuck (self : CharacterChunkingStrategy) (txt : str)
    (page_map : list PageSpan) :
  chunk_size self <= chunk_overlap self ->
  chunk_size self < len txt -> 0 < len txt ->
  forall fuel start chunks,
    start <= 0 -> chunk_loop fuel self txt page_map start chunks = None.
Proof.
  intros Hov Hlong Hpos. induction fuel as [|fuel IH]; intros start chunks Hstart.
  - reflexivity.
  - cbn [chunk_loop].
    replace (start <? len txt) with true by cmp_true.
    replace (start + chunk_size self >=? len txt) with false by cmp_false.
    apply IH. lia.
Qed.

(** With [0 <= chunk_overlap < chunk_size] the loop started inside the
    txt finishes within [len(text) - start] iterations, and the chunks
    it adds cover the text from [start] on. *)
Lemma chunk_loop_covers (self : CharacterChunkingStrategy) (txt : str)
    (page_map : list PageSpan) :
  0 <= chunk_overlap self < chunk_size self ->
  forall (n : nat) (start : Z),
    0 <= start < len txt -> len txt - start <= Z.of_nat n ->
    exists spans,
      spans <> []
      /\ (forall s c, In (s, c) spans ->
            start <= s < len txt
            /\ text c = slice txt s (s + chunk_size self))
      /\ (forall i, start <= i < len txt ->
            exists s c, In (s, c) spans /\ s <= i < s + len (text c))
      /\ (forall fuel chunks, (n <= fuel)%nat ->
            chunk_loop fuel self txt page_map start chunks
            = Some (chunks ++ spans)).
Proof.
  intros Hcfg. induction n as [|n IH]; intros start Hstart Hn; [lia|].
  pose proof (slice_window_len txt start (chunk_size self) Hstart ltac:(lia)) as Hlen.
  set (c := mkChunk (slice txt start (start + chunk_size self))
              (Some (PageOffsetMap.pages_of page_map start
                       (start + len (slice txt start (start + chunk_size self)))))).
  destruct (Z_lt_dec (start + chunk_size self) (len txt)) as [Hmore|Hlast].
  - destruct (IH (start + (chunk_size self - chunk_overlap self))
                ltac:(lia) ltac:(lia)) as (spans & Hne & Hwin & Hcov & Hrun).
    exists ((start, c) :: spans). repeat split.
    + discriminate.
    + destruct H as [H|H]; [inversion H; subst; lia | apply Hwin in H; lia].
    + destruct H as [H|H]; [inversion H; subst; lia | apply Hwin in H; lia].
    + destruct H as [H|H]; [inversion H; subst; reflexivity | apply Hwin in H; tauto].
    + intros i Hi.
      destruct (Z_lt_dec i (start + (chunk_size self - chunk_overlap self))) as [Hin|Hout].
      * exists start, c. split; [left; reflexivity|]. cbn [text c]. lia.
      * destruct (Hcov i ltac:(lia)) as (s & c' & Hin' & Hi').
        exists s, c'. split; [right; exact Hin' | exact Hi'].
    + intros fuel chunks Hfuel. destruct fuel as [|fuel]; [lia|].
      cbn [chunk_loop].
      replace (start <? len txt) with true by cmp_true.
      replace (start + chunk_size self >=? len txt) with false by cmp_false.
      fold c. rewrite Hrun by lia. rewrite <- app_assoc. reflexivity.
  - exists [(start, c)]. repeat split.
    + discriminate.
    + destruct H as [H|[]]; inversion H; subst; lia.
    + destruct H as [H|[]]; inversion H; subst; lia.
    + destruct H as [H|[]]; inversion H; subst; reflexivity.
    + intros i Hi. exists start, c. split; [left; reflexivity|].
      cbn [text c]. lia.
    + intros fuel chunks Hfuel. destruct fuel as [|fuel]; [lia|].
      cbn [chunk_loop].
      replace (start <? len txt) with true by cmp_true.
      replace (start + chunk_size self >=? len txt) with true by cmp_true.
      reflexivity.
Qed.

(** C1: with [chunk_size = 2] and [chunk_overlap = 2] the call
    [chunk("abc")] does not return, whatever the number of iterations
    granted: the stride [chunk_size - chunk_overlap] is used unclamped. *)
Theorem character_overlap_ge_size_diverges :
  forall (fuel : nat) (pages : option (list Page)),
    Character.chunk fuel (Character.init 2 2) (py "abc") pages = None.
Proof.
  intros fuel pages. unfold Character.chunk, chunk_spans.
  cbn [truthy py list_ascii_of_string negb].
  rewrite chunk_loop_stuck; [reflexivity | cbn; lia ..].
Qed.

(** C5, amended: for [0 <= chunk_overlap < chunk_size] and a non-empty
    text, [chunk] returns within [len(text)] iterations, every chunk is
    the window of the text at its start, and the spans of the chunks
    cover every offset of the text. *)
Theorem character_chunks_cover (self : CharacterChunkingStrategy)
    (txt : str) (pages : option (list Page)) :
  0 <= chunk_overlap self < chunk_size self ->
  txt <> [] ->
  exists spans,
    (forall fuel, (List.length txt <= fuel)%nat ->
       chunk_spans fuel self txt pages = Some spans
       /\ Character.chunk fuel self txt pages = Some (map snd spans))
    /\ spans <> []
    /\ windows self spans txt
    /\ covers spans txt.
Proof.
  intros Hcfg Hne.
  assert (Hpos : 0 < len txt) by (destruct txt; [congruence | rewrite len_cons; pose proof (len_nonneg txt); lia]).
  destruct (chunk_loop_covers self txt (PageOffsetMap.build pages) Hcfg
              (List.length txt) 0 ltac:(lia) ltac:(unfold len; lia))
    as (spans & Hnil & Hwin & Hcov & Hrun).
  exists spans. repeat split.
  - unfold chunk_spans. destruct txt; [congruence|]. cbn [truthy negb].
    rewrite Hrun by exact H. reflexivity.
  - unfold Character.chunk, chunk_spans. destruct txt; [congruence|]. cbn [truthy negb].
    rewrite Hrun by exact H. reflexivity.
  - exact Hnil.
  - apply Hwin in H. lia.
  - apply Hwin in H. lia.
  - apply Hwin in H. tauto.
  - intros i Hi. apply Hcov. exact Hi.
Qed.

Lemma character_chunks_cover_witness :
  exists spans,
    (forall fuel, (List.length (py "abcdefg") <= fuel)%nat ->
       chunk_spans fuel (init 3 1) (py "abcdefg") None = Some spans
       /\ Character.chunk fuel (init 3 1) (py "abcdefg") None = Some (map snd spans))
    /\ spans <> []
    /\ windows (init 3 1) spans (py "abcdefg")
    /\ covers spans (py "abcdefg").
Proof.
  apply (character_chunks_cover (init 3 1) (py "abcdefg") None).
  - cbn; lia.
  - discriminate.
Defined.

End CharacterProofs.

(** ** The strategy factory *)

Section FactoryProofs.

Import ChunkFactory FactorySpec.

(** A name equal to one of the literals: the call returns a strategy. *)
Ltac known E :=
  apply String.eqb_eq in E; subst;
  right; split; [reflexivity | eexists; reflexivity].

(** The outcome of [get_strategy] by cases on the name. *)
Lemma get_strategy_cases (name : string) (config : option Config)
    (provider : option EmbeddingProvider) :
  (rejected name provider = true
   /\ exists msg, get_strategy name config provider = inl (ValueError msg))
  \/ (rejected name provider = false
      /\ exists s, get_strategy name config provider = inr s).
Proof.
  destruct (String.eqb name "character") eqn:E1; [known E1|].
  destruct (String.eqb name "paragraph") eqn:E2; [known E2|].
  destruct (String.eqb name "sentence") eqn:E3; [known E3|].
  destruct (String.eqb name "recursive") eqn:E5; [known E5|].
  destruct (String.eqb name "hierarchical") eqn:E6; [known E6|].
  destruct (String.eqb name "semantic") eqn:E4.
  - apply String.eqb_eq in E4; subst. destruct provider as [prov|].
    + right; split; [reflexivity | eexists; reflexivity].
    + left; split; [reflexivity | eexists; reflexivity].
  - left. unfold get_strategy, rejected, recognized, recognized_names.
    cbn [existsb]. rewrite E1, E2, E3, E4, E5, E6.
    split; [reflexivity | eexists; reflexivity].
Qed.

(** C2, as stated, fails: with [chunk_size = 0] the construction returns
    a strategy and raises nothing. *)
Lemma zero_chunk_size_is_accepted :
  ~ stated_validation zero_size_config.
Proof.
  intros H. specialize (H (ex_intro _ 0 (conj eq_refl (Z.le_refl 0)))).
  discriminate H.
Qed.

(** C2, amended: construction validates nothing.  [get_strategy] on
    ["character"] returns the strategy holding the configured
    [chunk_size] and [chunk_overlap] as given, whatever their values,
    and no call of [get_strategy] fails with a ValidationError. *)
Theorem construction_validates_nothing :
  (forall (config : Config) (provider : option EmbeddingProvider),
     get_strategy "character" (Some config) provider
     = inr (CharacterStrategy
              (Character.mk (get (cfg_chunk_size config) 1000)
                            (get (cfg_chunk_overlap config) 200))))
  /\ (forall name config provider,
        is_validation_error (get_strategy name config provider) = false).
Proof.
  split; [reflexivity|].
  intros name config provider.
  destruct (get_strategy_cases name config provider) as [[_ [msg ->]]|[_ [s ->]]];
    reflexivity.
Qed.

(** C9, as stated, fails: an unknown name is rejected, but not with a
    ConfigurationError. *)
Lemma unknown_name_is_not_configuration_error :
  ~ stated_configuration_error "markdown" None None.
Proof. intros H. discriminate H. Qed.

(** C9, amended: [get_strategy] fails exactly when the name is not one
    of the six strategy names or when ["semantic"] comes without an
    embedding provider, the failure is a ValueError, and in every other
    case a constructed strategy is returned. *)
Theorem get_strategy_fails_exactly_when_rejected :
  forall name config provider,
    is_value_error (get_strategy name config provider)
    = rejected name provider
    /\ is_strategy (get_strategy name config provider)
       = negb (rejected name provider).
Proof.
  intros name config provider.
  destruct (get_strategy_cases name config provider)
    as [[-> [msg ->]]|[-> [s ->]]]; split; reflexivity.
Qed.

End FactoryProofs.

(** ** Paragraph strategy *)

Section ParagraphProofs.

Import Paragraph ParagraphSpec.

(** C8: with the default configuration, as the factory builds it, the
    example text yields exactly two chunks, one per paragraph. *)
Theorem paragraph_example_two_chunks :
  ChunkFactory.get_strategy "paragraph" None None
  = inr (ChunkFactory.ParagraphStrategy (Paragraph.init 100))
  /\ forall pages,
       map text (Paragraph.chunk (Paragraph.init 100) example_text pages)
       = [first_paragraph; second_paragraph]
       /\ List.length (Paragraph.chunk (Paragraph.init 100) example_text pages)
          = 2%nat.
Proof.
  split; [reflexivity|].
  intros pages. unfold Paragraph.chunk.
  set (page_map := PageOffsetMap.build pages).
  split; vm_compute; reflexivity.
Qed.

End ParagraphProofs.

(** ** Whitespace-only input *)

Section WhitespaceProofs.

Import SentenceSpec.

Lemma lstrip_all_space (s : str) : all_space s = true -> lstrip s = [].
Proof.
  induction s as [|c s IH]; [reflexivity|].
  cbn [all_space forallb lstrip]. intros H.
  apply andb_prop in H. destruct H as [Hc Hs]. rewrite Hc. apply IH, Hs.
Qed.

Lemma strip_all_space (s : str) : all_space s = true -> strip s = [].
Proof. intros H. unfold strip. rewrite (lstrip_all_space s H). reflexivity. Qed.

Lemma all_space_rev (s : str) : all_space s = true -> all_space (rev s) = true.
Proof.
  unfold all_space. rewrite !forallb_forall. intros H c Hc.
  apply H, in_rev, Hc.
Qed.

(** Every piece of a split of a whitespace-only text is whitespace-only. *)
Lemma split_go_all_space (sep : str) (s : str) :
  forall skip acc,
    all_space s = true -> all_space acc = true ->
    Forall (fun p => all_space p = true) (split_go sep skip acc s).
Proof.
  induction s as [|c s IH]; intros skip acc Hs Hacc.
  - cbn [split_go]. constructor; [apply all_space_rev, Hacc | constructor].
  - cbn [all_space forallb] in Hs. apply andb_prop in Hs. destruct Hs as [Hc Hs].
    cbn [split_go]. destruct skip as [|k].
    + destruct (starts_with sep (c :: s)).
      * constructor; [apply all_space_rev, Hacc | apply IH; [exact Hs | reflexivity]].
      * apply IH; [exact Hs|]. cbn [all_space forallb]. rewrite Hc. exact Hacc.
    + apply IH; assumption.
Qed.

(** Whitespace-only paragraphs leave the running chunk and the chunk
    list of the Paragraph loop as they are. *)
Lemma paragraph_fold_all_space (self : Paragraph.ParagraphChunkingStrategy)
    (page_map : list PageSpan) (ps : list str) :
  Forall (fun p => all_space p = true) ps ->
  forall st,
    Paragraph.chunks (fold_left (Paragraph.step self page_map) ps st)
    = Paragraph.chunks st
    /\ Paragraph.current_chunk_text
         (fold_left (Paragraph.step self page_map) ps st)
       = Paragraph.current_chunk_text st.
Proof.
  induction 1 as [|p ps Hp _ IH]; intros st; [split; reflexivity|].
  cbn [fold_left]. destruct (IH (Paragraph.step self page_map st p)) as [H1 H2].
  rewrite H1, H2. unfold Paragraph.step.
  rewrite (strip_all_space p Hp). cbn. split; reflexivity.
Qed.

Lemma paragraph_all_space (self : Paragraph.ParagraphChunkingStrategy)
    (txt : str) (pages : option (list Page)) :
  all_space txt = true -> Paragraph.chunk self txt pages = [].
Proof.
  intros Hsp. unfold Paragraph.chunk.
  destruct (negb (truthy txt)); [reflexivity|].
  destruct (paragraph_fold_all_space self (PageOffsetMap.build pages)
              (split txt para_break)
              (split_go_all_space para_break txt O [] Hsp eq_refl)
              (Paragraph.mkState [] [] 0 0)) as [H1 H2].
  cbv zeta. rewrite H1, H2. reflexivity.
Qed.

Lemma space_not_terminal (c : ascii) :
  is_space c = true -> Sentence.is_terminal c = false.
Proof.
  destruct c as [[] [] [] [] [] [] [] []]; vm_compute; congruence.
Qed.

(** A whitespace-only text has no sentence boundary: the split is the
    text itself. *)
Lemma re_split_go_all_space (capture : bool) (s : str) :
  forall acc,
    all_space s = true ->
    Sentence.re_split_go capture false false acc s = [rev acc ++ s].
Proof.
  induction s as [|c s IH]; intros acc Hs.
  - cbn. rewrite app_nil_r. reflexivity.
  - cbn [all_space forallb] in Hs. apply andb_prop in Hs. destruct Hs as [Hc Hs].
    cbn [Sentence.re_split_go andb].
    rewrite (space_not_terminal c Hc), (IH (c :: acc) Hs).
    cbn [rev]. rewrite <- app_assoc. reflexivity.
Qed.

Lemma sentences_of_all_space (txt : str) :
  all_space txt = true -> Sentence.sentences_of txt = [].
Proof.
  intros Hsp. unfold Sentence.sentences_of, Sentence.re_split.
  rewrite (re_split_go_all_space true txt [] Hsp). cbn [rev app fold_left].
  unfold Sentence.step. destruct txt as [|c txt']; [reflexivity|].
  cbn [truthy negb]. rewrite (strip_all_space _ Hsp).
  cbn [all_space forallb] in Hsp. apply andb_prop in Hsp. destruct Hsp as [Hc _].
  cbn [truthy negb Sentence.re_match_spaces andb]. rewrite Hc. reflexivity.
Qed.

Lemma sentence_all_space (self : Sentence.SentenceChunkingStrategy)
    (txt : str) (pages : option (list Page)) :
  all_space txt = true -> Sentence.chunk self txt pages = [].
Proof.
  intros Hsp. unfold Sentence.chunk.
  destruct (negb (truthy txt)); [reflexivity|].
  cbv zeta. rewrite (sentences_of_all_space txt Hsp). reflexivity.
Qed.

(** C10: on a non-empty text made of whitespace only, the Paragraph and
    the Sentence strategy both return the empty chunk list, whatever
    their configuration and with or without pages. *)
Theorem whitespace_only_yields_no_chunks
    (pself : Paragraph.ParagraphChunkingStrategy)
    (sself : Sentence.SentenceChunkingStrategy)
    (txt : str) (pages : option (list Page)) :
  txt <> [] -> all_space txt = true ->
  Paragraph.chunk pself txt pages = []
  /\ Sentence.chunk sself txt pages = [].
Proof.
  intros _ Hsp. split; [apply paragraph_all_space | apply sentence_all_space]; exact Hsp.
Qed.

Lemma whitespace_only_yields_no_chunks_witness :
  Paragraph.chunk (Paragraph.init 100) [SP; LF; LF; SP] None = []
  /\ Sentence.chunk (Sentence.init 5 1) [SP; LF; LF; SP] None = [].
Proof.
  apply (whitespace_only_yields_no_chunks (Paragraph.init 100) (Sentence.init 5 1)
           [SP; LF; LF; SP] None).
  - discriminate.
  - reflexivity.
Defined.

(** C7, as stated, fails: the one-character text [" "] is non-empty and
    has no sentence, hence at most five, yet [chunk] returns no chunk. *)
Lemma single_space_is_not_one_chunk :
  ~ stated_single_chunk (Sentence.init 5 1) [SP] None.
Proof.
  intros H. specialize (H ltac:(discriminate) ltac:(vm_compute; discriminate)).
  vm_compute in H. discriminate H.
Qed.

(** C7, amended: when the input has at least one sentence and at most
    [sentences_per_chunk] of them, [chunk] returns exactly one chunk,
    whose text is the input verbatim and whose page numbers are those of
    the span from the first sentence's start to the last sentence's
    end. *)
Theorem few_sentences_single_verbatim_chunk
    (self : Sentence.SentenceChunkingStrategy)
    (txt : str) (pages : option (list Page)) :
  Sentence.sentences_of txt <> [] ->
  Z.of_nat (List.length (Sentence.sentences_of txt))
    <= Sentence.sentences_per_chunk self ->
  Sentence.chunk self txt pages
  = [mkChunk txt (Some (span_pages pages (Sentence.sentences_of txt)))].
Proof.
  intros Hne Hle. unfold Sentence.chunk.
  destruct txt as [|c txt']; [exfalso; apply Hne; reflexivity|].
  cbn [truthy negb]. cbv zeta.
  destruct (Sentence.sentences_of (c :: txt')) as [|s0 ss] eqn:E; [congruence|].
  replace (Z.of_nat (List.length (s0 :: ss)) <=? Sentence.sentences_per_chunk self)
    with true by cmp_true.
  reflexivity.
Qed.

Lemma few_sentences_single_verbatim_chunk_witness :
  Sentence.chunk (Sentence.init 5 1) ParagraphSpec.example_text
    (Some PageMapSpec.two_pages)
  = [mkChunk ParagraphSpec.example_text
       (Some (span_pages (Some PageMapSpec.two_pages)
                (Sentence.sentences_of ParagraphSpec.example_text)))].
Proof.
  apply (few_sentences_single_verbatim_chunk (Sentence.init 5 1)
           ParagraphSpec.example_text (Some PageMapSpec.two_pages)).
  - vm_compute. discriminate.
  - vm_compute. discriminate.
Defined.

End WhitespaceProofs.

(** ** Recursive strategy *)

Section RecursiveProofs.

Import Recursive RecursiveSpec.

Lemma starts_with_In (c : ascii) (p : str) :
  forall s, starts_with p s = true -> In c p -> In c s.
Proof.
  induction p as [|a p IH]; intros s Hsw Hin; [destruct Hin|].
  destruct s as [|b s]; [discriminate Hsw|].
  cbn [starts_with] in Hsw. apply andb_prop in Hsw. destruct Hsw as [Hab Hrest].
  apply Ascii.eqb_eq in Hab. subst b.
  destruct Hin as [->|Hin]; [left; reflexivity | right; apply IH; assumption].
Qed.

Lemma contains_In (c : ascii) (p : str) :
  In c p -> forall s, contains p s = true -> In c s.
Proof.
  intros Hin. induction s as [|b s IH]; intros Hc.
  - cbn [contains] in Hc. rewrite orb_false_r in Hc.
    exact (starts_with_In c p [] Hc Hin).
  - cbn [contains] in Hc. apply orb_prop in Hc. destruct Hc as [Hc|Hc].
    + exact (starts_with_In c p (b :: s) Hc Hin).
    + right. apply IH, Hc.
Qed.

Lemma In_contains (c : ascii) (s : str) :
  In c s -> contains [c] s = true.
Proof.
  induction s as [|b s IH]; intros Hin; [destruct Hin|].
  cbn [contains starts_with]. destruct Hin as [->|Hin].
  - rewrite Ascii.eqb_refl. reflexivity.
  - rewrite (IH Hin). apply orb_true_r.
Qed.

(** A pattern that holds a character the text lacks does not occur. *)
Lemma contains_absent (c : ascii) (p s : str) :
  In c p -> contains [c] s = false -> contains p s = false.
Proof.
  intros Hin Habs. destruct (contains p s) eqn:E; [|reflexivity].
  rewrite (In_contains c s (contains_In c p Hin s E)) in Habs. discriminate.
Qed.

(** On an unsplittable text the separator loop falls through to the
    empty separator, with no separators left. *)
Lemma select_loop_unsplittable (txt : str) :
  unsplittable txt ->
  select_loop txt default_separators (last default_separators [])
  = ([], []).
Proof.
  intros (Hpb & Hlf & Hsp). unfold default_separators.
  cbn [select_loop eqb]. 
  change (eqb para_break []) with false. change (eqb [LF] []) with false.
  change (eqb [SP] []) with false. change (eqb [] []) with true.
  cbv iota.
  rewrite Hpb, Hlf, Hsp.
  rewrite (contains_absent LF (_regex_escape para_break) txt) by (assumption || (vm_compute; tauto)).
  rewrite (contains_absent LF (_regex_escape [LF]) txt) by (assumption || (vm_compute; tauto)).
  rewrite (contains_absent SP (_regex_escape [SP]) txt) by (assumption || (vm_compute; tauto)).
  reflexivity.
Qed.

Lemma join_nil_concat (l : list str) : join [] l = List.concat l.
Proof.
  induction l as [|a l IH]; [reflexivity|].
  destruct l as [|b l']; [cbn; rewrite app_nil_r; reflexivity|].
  change (join [] (a :: b :: l')) with (a ++ [] ++ join [] (b :: l')).
  rewrite IH. reflexivity.
Qed.

Lemma flush_bounded (size : Z) (good cur : list str) :
  Forall (fun d => len d <= size) good ->
  len (List.concat cur) <= size ->
  Forall (fun d => len d <= size) (flush [] good cur).
Proof.
  intros Hgood Hcur. unfold flush. rewrite join_nil_concat.
  destruct (truthy (strip (List.concat cur))); [|exact Hgood].
  apply Forall_app. split; [exact Hgood | constructor; [exact Hcur | constructor]].
Qed.

(** With the empty separator the carried-over items plus one character
    still fit: the carried length stays below [chunk_overlap]. *)
Lemma overlap_loop_room (self : RecursiveChunkingStrategy) :
  chunk_overlap self < chunk_size self ->
  forall items oc ol,
    ol = len (List.concat oc) -> ol + 1 <= chunk_size self ->
    snd (overlap_loop self [] items oc ol)
    = len (List.concat (fst (overlap_loop self [] items oc ol)))
    /\ snd (overlap_loop self [] items oc ol) + 1 <= chunk_size self.
Proof.
  intros Hcfg. induction items as [|item items IH]; intros oc ol Hol Hroom.
  - cbn. split; assumption.
  - cbn [overlap_loop].
    destruct (ol + len item <? chunk_overlap self) eqn:E.
    + apply Z.ltb_lt in E. apply IH.
      * cbn [List.concat]. rewrite len_app, len_nil. lia.
      * rewrite len_nil. lia.
    + cbn. split; assumption.
Qed.

(** The packing loop on single characters with the empty separator:
    it returns, and every closed chunk as well as the running one stays
    within [chunk_size]. *)
Lemma merge_loop_chars (self : RecursiveChunkingStrategy)
    (recurse : str -> run (list str)) :
  0 < chunk_size self -> chunk_overlap self < chunk_size self ->
  forall splits good cur cur_len,
    Forall (fun s => len s = 1) splits ->
    Forall (fun d => len d <= chunk_size self) good ->
    cur_len = len (List.concat cur) -> cur_len <= chunk_size self ->
    exists good' cur' len',
      merge_loop self recurse [] [] splits good cur cur_len
      = Done (good', cur', len')
      /\ Forall (fun d => len d <= chunk_size self) good'
      /\ len (List.concat cur') <= chunk_size self.
Proof.
  intros Hpos Hcfg.
  induction splits as [|split splits IH]; intros good cur cur_len Hsp Hgood Hlen Hle.
  - exists good, cur, cur_len. cbn. repeat split; [exact Hgood | lia].
  - inversion Hsp as [|? ? H1 Hrest]; subst.
    cbn [merge_loop]. rewrite H1. rewrite len_nil.
    cbn [List.length Nat.eqb negb andb]. rewrite andb_false_r.
    assert (Hsnoc : forall l : list str, len (List.concat (l ++ [split])) = len (List.concat l) + 1).
    { intros l. rewrite concat_app, len_app. cbn [List.concat]. rewrite app_nil_r, H1. reflexivity. }
    destruct cur as [|x cur0].
    + cbn [List.length Nat.eqb negb].
      destruct (len (List.concat []) + 1 + 0 >? chunk_size self);
        (apply IH; [exact Hrest | exact Hgood | rewrite Hsnoc; reflexivity | cbn; lia]).
    + cbn [List.length Nat.eqb negb].
      destruct (len (List.concat (x :: cur0)) + 1 + 0 >? chunk_size self) eqn:E.
      * match goal with
        | |- context [overlap_loop self ?b ?c ?d ?e] =>
            destruct (overlap_loop_room self Hcfg c d e eq_refl ltac:(lia))
              as [Hol Hroom];
            revert Hol Hroom; destruct (overlap_loop self b c d e) as [oc ol]
        end.
        cbn [fst snd]. intros Hol Hroom.
        apply IH;
          [ exact Hrest
          | apply flush_bounded; [exact Hgood | lia]
          | rewrite Hsnoc; lia
          | lia ].
      * rewrite Z.gtb_ltb in E. apply Z.ltb_ge in E.
        apply IH; [exact Hrest | exact Hgood | rewrite Hsnoc; lia | lia].
Qed.

(** With no separators left the packing loop never recurses. *)
Lemma merge_loop_no_recursion (self : RecursiveChunkingStrategy)
    (r1 r2 : str -> run (list str)) (separator : str) :
  forall splits good cur n,
    merge_loop self r1 separator [] splits good cur n
    = merge_loop self r2 separator [] splits good cur n.
Proof.
  induction splits as [|a l IH]; intros good cur n; [reflexivity|].
  cbn [merge_loop List.length Nat.eqb negb]. rewrite !andb_false_r.
  destruct (_ >? _); [|apply IH].
  destruct cur; [apply IH|].
  destruct (overlap_loop _ _ _ _ _). apply IH.
Qed.

(** On an unsplittable text [_split_text] returns at its first level,
    with pieces within [chunk_size]. *)
Lemma split_text_unsplittable (self : RecursiveChunkingStrategy) (txt : str) :
  0 < chunk_size self -> chunk_overlap self < chunk_size self ->
  unsplittable txt ->
  exists pieces,
    (forall fuel, (1 <= fuel)%nat ->
       _split_text fuel self txt default_separators = Done pieces)
    /\ Forall (fun d => len d <= chunk_size self) pieces.
Proof.
  intros Hpos Hcfg Huns.
  assert (Hchars : Forall (fun s => len s = 1) (map (fun c => [c]) txt)).
  { apply Forall_forall. intros s Hs. apply in_map_iff in Hs.
    destruct Hs as (c & <- & _). reflexivity. }
  destruct (merge_loop_chars self (fun _ => OutOfFuel) Hpos Hcfg
              (map (fun c => [c]) txt) [] [] 0 Hchars
              (Forall_nil _) eq_refl ltac:(lia))
    as (good' & cur' & len' & Hrun & Hgood & Hcur).
  exists (match cur' with [] => good' | _ :: _ => flush [] good' cur' end).
  split.
  - intros fuel Hfuel. destruct fuel as [|fuel]; [lia|].
    cbn [_split_text]. unfold default_separators at 1.
    rewrite (select_loop_unsplittable txt Huns). cbn [truthy].
    match goal with
    | |- context [merge_loop ?s ?r ?a ?b ?c ?d ?e ?f] =>
        replace (merge_loop s r a b c d e f) with (Done (good', cur', len'))
          by (symmetry; etransitivity;
              [apply (merge_loop_no_recursion self _ (fun _ => OutOfFuel))
              | exact Hrun])
    end.
    cbn [bind]. destruct cur'; reflexivity.
  - destruct cur'; [exact Hgood | apply flush_bounded; assumption].
Qed.

(** The offset recovery keeps the chunk texts, in order. *)
Lemma locate_texts (txt : str) (page_map : list PageSpan) (pieces : list str) :
  forall st,
    map text (fst (fold_left (locate txt page_map) pieces st))
    = map text (fst st) ++ pieces.
Proof.
  induction pieces as [|d pieces IH]; intros [results k].
  - cbn. rewrite app_nil_r. reflexivity.
  - cbn [fold_left]. rewrite IH. unfold locate.
    destruct (negb _); cbn [fst]; rewrite map_app; cbn [map text];
      rewrite <- app_assoc; reflexivity.
Qed.

(** On an unsplittable text, with [0 < chunk_size] and [chunk_overlap <
    chunk_size], [chunk] returns at the first level of the recursion and
    every chunk's text is within [chunk_size]. *)
Lemma unsplittable_token_chunks_bounded
    (self : RecursiveChunkingStrategy) (txt : str)
    (pages : option (list Page)) :
  separators self = default_separators ->
  0 < chunk_size self -> chunk_overlap self < chunk_size self ->
  chunk_size self < len txt ->
  unsplittable txt ->
  exists chunks,
    (forall fuel, (1 <= fuel)%nat ->
       Recursive.chunk fuel self txt pages = Done chunks)
    /\ bounded self chunks.
Proof.
  intros Hseps Hpos Hcfg Hlong Huns.
  destruct (split_text_unsplittable self txt Hpos Hcfg Huns) as (pieces & Hrun & Hb).
  exists (fst (fold_left (locate txt (PageOffsetMap.build pages)) pieces ([], 0))).
  split.
  - intros fuel Hfuel. unfold Recursive.chunk.
    destruct txt as [|c txt']; [cbn in Hlong; lia|].
    cbn [truthy negb]. rewrite Hseps, (Hrun fuel Hfuel). reflexivity.
  - unfold bounded. 
    pose proof (locate_texts txt (PageOffsetMap.build pages) pieces ([], 0)) as Ht.
    cbn [fst map app] in Ht.
    remember (fst (fold_left (locate txt (PageOffsetMap.build pages)) pieces ([], 0))) as cs.
    clear Heqcs Hrun. revert cs Ht.
    induction Hb as [|d pieces Hd _ IH]; intros cs Ht.
    + destruct cs; [constructor | discriminate].
    + destruct cs as [|c cs]; [discriminate|]. cbn [map] in Ht.
      inversion Ht; subst. constructor; [exact Hd | apply IH; reflexivity].
Qed.

(** The pathological token of ten letters, cut by fours. *)
Example recursive_token_example :
  Recursive.chunk 1 (init 4 1 None) (py "abcdefghij") None
  = Done [mkChunk (py "abcd") (Some []); mkChunk (py "efgh") (Some []);
          mkChunk (py "ij") (Some [])].
Proof. vm_compute. reflexivity. Qed.

End RecursiveProofs.

(** ** Semantic strategy *)

Section SemanticProofs.

Import Semantic SemanticSpec.

Variable cosine_similarity : vector -> vector -> Q.









End SemanticProofs.


(** On the example the chunks are ["Aa. Bb."] and ["Cccc."]. *)
Example semantic_example :
  Semantic.chunk SemanticSpec.same_vector
    (Semantic.init SemanticSpec.length_provider 1%Q)
    SemanticSpec.three_sentences None
  = inr [mkChunk (py "Aa. Bb.") None; mkChunk (py "Cccc.") None].
Proof. vm_compute. reflexivity. Qed.

(** ** Character strategy: the layout of the chunks *)

Section CharacterLayout.

Import Character CharacterShape.

Lemma slice_whole (txt : str) (size : Z) :
  txt <> [] -> len txt <= size -> slice txt 0 (0 + size) = txt.
Proof.
  intros Hne Hle.
  assert (Hpos : 0 < len txt)
    by (destruct txt; [congruence | rewrite len_cons; pose proof (len_nonneg txt); lia]).
  unfold slice, clamp_index, len in *. cbn [Z.ltb Z.compare Z.add].
  replace (size <? 0) with false by cmp_false.
  rewrite Z.min_l by lia. rewrite (Z.min_r size) by lia.
  replace (0 <? Z.of_nat (List.length txt)) with true by cmp_true.
  cbn [Z.to_nat skipn]. rewrite Z.sub_0_r, Nat2Z.id. apply firstn_all.
Qed.

Lemma slice_as_firstn (txt : str) (start size : Z) :
  0 <= start < len txt -> 0 < size ->
  slice txt start (start + size)
  = firstn (Z.to_nat size) (skipn (Z.to_nat start) txt).
Proof.
  intros Hs Hsize. unfold slice, clamp_index, len in *.
  replace (start <? 0) with false by cmp_false.
  replace (start + size <? 0) with false by cmp_false.
  replace (Z.min start (Z.of_nat (List.length txt)) <?
           Z.min (start + size) (Z.of_nat (List.length txt)))
    with true by cmp_true.
  rewrite (Z.min_l start) by lia.
  destruct (Z_le_dec (start + size) (Z.of_nat (List.length txt))) as [Hin|Hout].
  - rewrite Z.min_l by lia. f_equal. lia.
  - rewrite Z.min_r by lia.
    rewrite !firstn_all2; [reflexivity | rewrite length_skipn; lia ..].
Qed.

(** The loop on a text that fits in one window: one iteration. *)
Lemma chunk_loop_short (self : CharacterChunkingStrategy) (txt : str)
    (page_map : list PageSpan) (fuel : nat) :
  txt <> [] -> len txt <= chunk_size self ->
  chunk_loop (S fuel) self txt page_map 0 []
  = Some [(0, mkChunk txt (Some (PageOffsetMap.pages_of page_map 0 (len txt))))].
Proof.
  intros Hne Hle.
  assert (Hpos : 0 < len txt)
    by (destruct txt; [congruence | rewrite len_cons; pose proof (len_nonneg txt); lia]).
  cbn [chunk_loop].
  replace (0 <? len txt) with true by cmp_true.
  replace (0 + chunk_size self >=? len txt) with true by cmp_true.
  rewrite (slice_whole txt (chunk_size self) Hne Hle). reflexivity.
Qed.

Lemma character_short_text_single_chunk_aux
    (self : CharacterChunkingStrategy) (txt : str)
    (pages : option (list Page)) :
  txt <> [] -> len txt <= chunk_size self ->
  Character.chunk 1 self txt pages
  = Some [mkChunk txt
            (Some (PageOffsetMap.pages_of (PageOffsetMap.build pages) 0 (len txt)))].
Proof.
  intros Hne Hle. unfold Character.chunk, chunk_spans.
  destruct txt as [|c txt']; [congruence|]. cbn [truthy negb].
  rewrite chunk_loop_short by assumption. reflexivity.
Qed.

(** X1: a non-empty text no longer than [chunk_size] comes back as one
    chunk, the text itself, after a single iteration and whatever
    [chunk_overlap] is. *)
Theorem character_short_text_single_chunk
    (self : CharacterChunkingStrategy) (txt : str)
    (pages : option (list Page)) (fuel : nat) :
  txt <> [] -> len txt <= chunk_size self -> (1 <= fuel)%nat ->
  Character.chunk fuel self txt pages
  = Some [mkChunk txt
            (Some (PageOffsetMap.pages_of (PageOffsetMap.build pages) 0 (len txt)))].
Proof.
  intros Hne Hle Hfuel. destruct fuel as [|fuel]; [lia|].
  unfold Character.chunk, chunk_spans.
  destruct txt as [|c txt']; [congruence|]. cbn [truthy negb].
  rewrite chunk_loop_short by assumption. reflexivity.
Qed.

Lemma character_short_text_single_chunk_witness :
  Character.chunk 1 (init 5 9) (py "abc") None
  = Some [mkChunk (py "abc")
            (Some (PageOffsetMap.pages_of (PageOffsetMap.build None) 0 (len (py "abc"))))].
Proof.
  apply (character_short_text_single_chunk (init 5 9) (py "abc") None 1).
  - discriminate.
  - cbn. lia.
  - lia.
Defined.

(** X2: when [chunk_overlap >= chunk_size], [chunk] on a non-empty text
    returns if and only if the text is no longer than [chunk_size]; on a
    longer text no number of iterations is enough. *)
Theorem character_returns_iff_text_fits
    (self : CharacterChunkingStrategy) (txt : str)
    (pages : option (list Page)) :
  chunk_size self <= chunk_overlap self -> txt <> [] ->
  ((exists fuel chunks, Character.chunk fuel self txt pages = Some chunks)
   <-> len txt <= chunk_size self).
Proof.
  intros Hov Hne.
  assert (Hpos : 0 < len txt)
    by (destruct txt; [congruence | rewrite len_cons; pose proof (len_nonneg txt); lia]).
  split.
  - intros (fuel & chunks & Hrun).
    destruct (Z_le_dec (len txt) (chunk_size self)) as [Hle|Hgt]; [exact Hle|].
    exfalso. unfold Character.chunk, chunk_spans in Hrun.
    destruct txt as [|c txt']; [congruence|]. cbn [truthy negb] in Hrun.
    rewrite chunk_loop_stuck in Hrun; [discriminate | lia ..].
  - intros Hle. exists 1%nat. eexists.
    apply character_short_text_single_chunk_aux; assumption.
Qed.

Lemma character_returns_iff_text_fits_witness :
  (exists fuel chunks,
     Character.chunk fuel (init 2 2) (py "abc") None = Some chunks)
  <-> len (py "abc") <= chunk_size (init 2 2).
Proof.
  apply (character_returns_iff_text_fits (init 2 2) (py "abc") None).
  - cbn; lia.
  - discriminate.
Defined.

(** The loop started inside the text, with [0 <= chunk_overlap <
    chunk_size]: what it appends starts at [start] and goes on by the
    stride. *)
Lemma chunk_loop_layout (self : CharacterChunkingStrategy) (txt : str)
    (page_map : list PageSpan) :
  0 <= chunk_overlap self < chunk_size self ->
  forall (n : nat) (start : Z),
    0 <= start < len txt -> len txt - start <= Z.of_nat n ->
    exists spans,
      (forall fuel chunks, (n <= fuel)%nat ->
         chunk_loop fuel self txt page_map start chunks = Some (chunks ++ spans))
      /\ map fst spans
         = map (fun k => start + Z.of_nat k * stride self)
             (seq 0 (List.length spans))
      /\ Forall (fun x => 0 <= fst x < len txt
                          /\ text (snd x)
                             = slice txt (fst x) (fst x + chunk_size self)) spans
      /\ (forall pre x post, spans = pre ++ x :: post -> post <> [] ->
            fst x + chunk_size self < len txt)
      /\ (exists pre x, spans = pre ++ [x]
                        /\ len txt <= fst x + chunk_size self).
Proof.
  intros Hcfg. induction n as [|n IH]; intros start Hstart Hn; [lia|].
  set (c := mkChunk (slice txt start (start + chunk_size self))
              (Some (PageOffsetMap.pages_of page_map start
                       (start + len (slice txt start (start + chunk_size self)))))).
  destruct (Z_lt_dec (start + chunk_size self) (len txt)) as [Hmore|Hlast].
  - destruct (IH (start + (chunk_size self - chunk_overlap self))
                ltac:(lia) ltac:(lia))
      as (spans & Hrun & Hstarts & Hwin & Hfull & (lpre & lx & Hlast & Hend)).
    exists ((start, c) :: spans). split; [|split; [|split; [|split]]].
    + intros fuel chunks Hfuel. destruct fuel as [|fuel]; [lia|].
      cbn [chunk_loop].
      replace (start <? len txt) with true by cmp_true.
      replace (start + chunk_size self >=? len txt) with false by cmp_false.
      fold c. rewrite Hrun by lia. rewrite <- app_assoc. reflexivity.
    + cbn [map fst List.length seq]. f_equal; [lia|].
      rewrite Hstarts, <- seq_shift, map_map. apply map_ext.
      intros k. unfold stride. rewrite Nat2Z.inj_succ. ring.
    + constructor; [cbn [fst snd text c]; split; [lia | reflexivity] | exact Hwin].
    + intros pre x post Heq Hpost. destruct pre as [|h pre'].
      * cbn [app] in Heq. inversion Heq as [[Hx Htl]]. cbn [fst]. exact Hmore.
      * cbn [app] in Heq. inversion Heq as [[Hh Htl]].
        eapply Hfull; [exact Htl | exact Hpost].
    + exists ((start, c) :: lpre), lx. split; [rewrite Hlast; reflexivity | exact Hend].
  - exists [(start, c)]. split; [|split; [|split; [|split]]].
    + intros fuel chunks Hfuel. destruct fuel as [|fuel]; [lia|].
      cbn [chunk_loop].
      replace (start <? len txt) with true by cmp_true.
      replace (start + chunk_size self >=? len txt) with true by cmp_true.
      reflexivity.
    + cbn. f_equal. lia.
    + constructor; [cbn [fst snd text c]; split; [lia | reflexivity] | constructor].
    + intros pre x post Heq Hpost. destruct pre as [|h pre'].
      * inversion Heq as [[Hx Htl]]. congruence.
      * inversion Heq as [[Hh Htl]]. destruct pre'; discriminate Htl.
    + exists [], (start, c). split; [reflexivity | cbn [fst]; lia].
Qed.

(** X3: for [0 <= chunk_overlap < chunk_size] and a non-empty text the
    chunks start at 0, stride, twice the stride, ..., each chunk is the window
    of the text at its start and holds between 1 and [chunk_size]
    characters, every chunk before the last holds exactly [chunk_size],
    and the last chunk ends at the end of the text. *)
Theorem character_chunk_layout (self : CharacterChunkingStrategy)
    (txt : str) (pages : option (list Page)) :
  0 <= chunk_overlap self < chunk_size self ->
  txt <> [] ->
  exists spans,
    (forall fuel, (List.length txt <= fuel)%nat ->
       chunk_spans fuel self txt pages = Some spans)
    /\ layout self txt spans.
Proof.
  intros Hcfg Hne.
  assert (Hpos : 0 < len txt)
    by (destruct txt; [congruence | rewrite len_cons; pose proof (len_nonneg txt); lia]).
  destruct (chunk_loop_layout self txt (PageOffsetMap.build pages) Hcfg
              (List.length txt) 0 ltac:(lia) ltac:(unfold len; lia))
    as (spans & Hrun & Hstarts & Hwin & Hfull & (lpre & lx & Hlast & Hend)).
  exists spans. split.
  - intros fuel Hfuel. unfold chunk_spans.
    destruct txt; [congruence|]. cbn [truthy negb].
    rewrite (Hrun fuel [] Hfuel). reflexivity.
  - rewrite Forall_forall in Hwin.
    assert (Hlen : forall x, In x spans ->
              len (text (snd x))
              = Z.min (fst x + chunk_size self) (len txt) - fst x).
    { intros x Hx. destruct (Hwin x Hx) as [Hr Ht]. rewrite Ht.
      apply slice_window_len; lia. }
    unfold layout, multiples. split; [|split; [|split]].
    + rewrite Hstarts. apply map_ext. intros k. lia.
    + intros start c Hin. destruct (Hwin _ Hin) as [Hr Ht].
      specialize (Hlen _ Hin). cbn [fst snd] in *. split; [exact Ht | lia].
    + intros pre x post Heq Hpost.
      assert (Hx : In x spans) by (rewrite Heq; apply in_elt).
      specialize (Hfull pre x post Heq Hpost). rewrite (Hlen x Hx). lia.
    + intros pre x Heq.
      assert (Hx : In x spans) by (rewrite Heq; apply in_elt).
      rewrite Hlast in Heq. apply app_inj_tail in Heq. destruct Heq as [_ <-].
      destruct (Hwin _ Hx) as [Hr _]. rewrite (Hlen _ Hx). lia.
Qed.

Lemma character_chunk_layout_witness :
  exists spans,
    (forall fuel, (List.length (py "abcdefg") <= fuel)%nat ->
       chunk_spans fuel (init 3 1) (py "abcdefg") None = Some spans)
    /\ layout (init 3 1) (py "abcdefg") spans.
Proof.
  apply (character_chunk_layout (init 3 1) (py "abcdefg") None).
  - cbn; lia.
  - discriminate.
Defined.

(** Without overlap the chunks the loop appends spell the rest of the
    text. *)
Lemma chunk_loop_concat (self : CharacterChunkingStrategy) (txt : str)
    (page_map : list PageSpan) :
  chunk_overlap self = 0 -> 0 < chunk_size self ->
  forall (n : nat) (start : Z),
    0 <= start < len txt -> len txt - start <= Z.of_nat n ->
    exists spans,
      (forall fuel chunks, (n <= fuel)%nat ->
         chunk_loop fuel self txt page_map start chunks = Some (chunks ++ spans))
      /\ List.concat (map (fun x => text (snd x)) spans)
         = skipn (Z.to_nat start) txt.
Proof.
  intros Hov Hsize. induction n as [|n IH]; intros start Hstart Hn; [lia|].
  set (c := mkChunk (slice txt start (start + chunk_size self))
              (Some (PageOffsetMap.pages_of page_map start
                       (start + len (slice txt start (start + chunk_size self)))))).
  destruct (Z_lt_dec (start + chunk_size self) (len txt)) as [Hmore|Hlast].
  - destruct (IH (start + (chunk_size self - chunk_overlap self))
                ltac:(lia) ltac:(lia)) as (spans & Hrun & Hcat).
    exists ((start, c) :: spans). split.
    + intros fuel chunks Hfuel. destruct fuel as [|fuel]; [lia|].
      cbn [chunk_loop].
      replace (start <? len txt) with true by cmp_true.
      replace (start + chunk_size self >=? len txt) with false by cmp_false.
      fold c. rewrite Hrun by lia. rewrite <- app_assoc. reflexivity.
    + cbn [map List.concat snd text c]. rewrite Hcat.
      rewrite slice_as_firstn by lia.
      replace (Z.to_nat (start + (chunk_size self - chunk_overlap self)))
        with (Z.to_nat (chunk_size self) + Z.to_nat start)%nat by lia.
      rewrite <- skipn_skipn. apply firstn_skipn.
  - exists [(start, c)]. split.
    + intros fuel chunks Hfuel. destruct fuel as [|fuel]; [lia|].
      cbn [chunk_loop].
      replace (start <? len txt) with true by cmp_true.
      replace (start + chunk_size self >=? len txt) with true by cmp_true.
      reflexivity.
    + cbn [map List.concat snd text c]. rewrite app_nil_r.
      rewrite slice_as_firstn by lia. apply firstn_all2.
      rewrite length_skipn. unfold len in *. lia.
Qed.

(** X4: with [chunk_overlap = 0] and [chunk_size > 0] the chunk texts,
    put one after the other, are the input text: nothing is lost,
    repeated or reordered. *)
Theorem character_no_overlap_concat (self : CharacterChunkingStrategy)
    (txt : str) (pages : option (list Page)) :
  chunk_overlap self = 0 -> 0 < chunk_size self ->
  exists chunks,
    (forall fuel, (List.length txt <= fuel)%nat ->
       Character.chunk fuel self txt pages = Some chunks)
    /\ List.concat (map text chunks) = txt.
Proof.
  intros Hov Hsize. destruct txt as [|c0 txt'] eqn:Etxt.
  - exists []. split; [intros fuel _; reflexivity | reflexivity].
  - rewrite <- Etxt.
    assert (Hpos : 0 < len txt) by (subst txt; rewrite len_cons; pose proof (len_nonneg txt'); lia).
    destruct (chunk_loop_concat self txt (PageOffsetMap.build pages) Hov Hsize
                (List.length txt) 0 ltac:(lia) ltac:(unfold len; lia))
      as (spans & Hrun & Hcat).
    exists (map snd spans). split.
    + intros fuel Hfuel. unfold Character.chunk, chunk_spans.
      rewrite Etxt at 1. cbn [truthy negb].
      rewrite (Hrun fuel [] Hfuel). reflexivity.
    + rewrite map_map. exact Hcat.
Qed.

Lemma character_no_overlap_concat_witness :
  exists chunks,
    (forall fuel, (List.length (py "abcdefg") <= fuel)%nat ->
       Character.chunk fuel (init 3 0) (py "abcdefg") None = Some chunks)
    /\ List.concat (map text chunks) = py "abcdefg".
Proof.
  apply (character_no_overlap_concat (init 3 0) (py "abcdefg") None).
  - reflexivity.
  - reflexivity.
Defined.

End CharacterLayout.

(** ** The page-offset map: looking a span up *)

Section PageLookup.

Import PageMapSpec.

Lemma spans_from_lower (pages : list Page) :
  forall off e, In e (spans_from off pages) ->
    off <= pm_start e /\ pm_start e <= pm_end e.
Proof.
  induction pages as [|p rest IH]; intros off e Hin; [destruct Hin|].
  cbn [spans_from] in Hin. destruct Hin as [<-|Hin].
  - cbn. pose proof (len_nonneg (page_text p)). lia.
  - apply IH in Hin. pose proof (len_nonneg (page_text p)).
    destruct rest; lia.
Qed.

(** A span that ends at or before every interval's start meets none. *)
Lemma pages_of_all_after (m : list PageSpan) (s e : Z) :
  (forall x, In x m -> e <= pm_start x) ->
  PageOffsetMap.pages_of m s e = [].
Proof.
  intros Hall. unfold PageOffsetMap.pages_of.
  induction m as [|x m IH]; [reflexivity|].
  cbn [filter]. unfold PageOffsetMap.intersects at 1.
  replace (e >? pm_start x) with false
    by (pose proof (Hall x (or_introl eq_refl)); cmp_false).
  rewrite andb_false_r. apply IH. intros y Hy. apply Hall. right. exact Hy.
Qed.

Lemma pages_of_cons (x : PageSpan) (m : list PageSpan) (s e : Z) :
  PageOffsetMap.pages_of (x :: m) s e
  = (if PageOffsetMap.intersects s e x then [pm_page_number x] else [])
    ++ PageOffsetMap.pages_of m s e.
Proof.
  unfold PageOffsetMap.pages_of. cbn [filter].
  destruct (PageOffsetMap.intersects s e x); reflexivity.
Qed.

Lemma pages_of_inside (pages : list Page) :
  forall off k en s e,
    nth_error (spans_from off pages) k = Some en ->
    pm_start en <= s -> s < e -> e <= pm_end en ->
    PageOffsetMap.pages_of (spans_from off pages) s e = [pm_page_number en].
Proof.
  induction pages as [|p rest IH]; intros off k en s e Hk Hs Hse He;
    [destruct k; discriminate|].
  cbn [spans_from] in Hk |- *. rewrite pages_of_cons.
  unfold PageOffsetMap.intersects. cbn [pm_start pm_end pm_page_number].
  destruct k as [|k].
  - cbn in Hk. inversion Hk; subst en. cbn [pm_start pm_end pm_page_number] in *.
    replace (s <? off + len (page_text p)) with true by cmp_true.
    replace (e >? off) with true by cmp_true.
    rewrite pages_of_all_after; [reflexivity|].
    intros x Hx. apply spans_from_lower in Hx. destruct rest; lia.
  - cbn [nth_error] in Hk.
    pose proof (spans_from_lower _ _ _ (nth_error_In _ _ Hk)) as Hlow.
    destruct rest as [|q rest']; [destruct k; discriminate|].
    replace (s <? off + len (page_text p)) with false by cmp_false.
    cbn [andb app]. eapply IH; eassumption.
Qed.

Lemma pages_of_across (pages : list Page) :
  forall off k a b s e,
    nth_error (spans_from off pages) k = Some a ->
    nth_error (spans_from off pages) (S k) = Some b ->
    pm_start a <= s < pm_end a -> pm_start b < e <= pm_end b ->
    PageOffsetMap.pages_of (spans_from off pages) s e
    = [pm_page_number a; pm_page_number b].
Proof.
  induction pages as [|p rest IH]; intros off k a b s e Ha Hb Hs He;
    [destruct k; discriminate|].
  cbn [spans_from] in Ha, Hb |- *. rewrite pages_of_cons.
  unfold PageOffsetMap.intersects at 1. cbn [pm_start pm_end pm_page_number].
  cbn [nth_error] in Hb.
  pose proof (len_nonneg (page_text p)) as Hp.
  destruct k as [|k].
  - cbn in Ha. inversion Ha; subst a. cbn [pm_start pm_end pm_page_number] in *.
    destruct rest as [|q rest']; [discriminate|].
    cbn [spans_from nth_error] in Hb |- *. inversion Hb; subst b.
    cbn [pm_start pm_end pm_page_number] in *.
    pose proof (len_nonneg (page_text q)) as Hq.
    replace (s <? off + len (page_text p)) with true by cmp_true.
    replace (e >? off) with true by cmp_true.
    rewrite pages_of_cons. unfold PageOffsetMap.intersects at 1.
    cbn [pm_start pm_end pm_page_number andb app].
    replace (s <? off + len (page_text p) + 2 + len (page_text q)) with true by cmp_true.
    replace (e >? off + len (page_text p) + 2) with true by cmp_true.
    rewrite pages_of_all_after; [reflexivity|].
    intros x Hx. apply spans_from_lower in Hx. destruct rest'; lia.
  - cbn [nth_error] in Ha.
    pose proof (spans_from_lower _ _ _ (nth_error_In _ _ Ha)) as Hlow.
    destruct rest as [|q rest']; [destruct k; discriminate|].
    replace (s <? off + len (page_text p)) with false by cmp_false.
    cbn [andb app]. eapply IH; eassumption.
Qed.

(** X5: a non-empty span that lies inside the interval of one page is
    mapped to that page's number and to no other. *)
Theorem pages_of_span_inside_page (pages : list Page) (k : nat)
    (en : PageSpan) (s e : Z) :
  nth_error (PageOffsetMap.build (Some pages)) k = Some en ->
  pm_start en <= s -> s < e -> e <= pm_end en ->
  PageOffsetMap.pages_of (PageOffsetMap.build (Some pages)) s e
  = [pm_page_number en].
Proof.
  rewrite build_spans. apply pages_of_inside.
Qed.

Lemma pages_of_span_inside_page_witness :
  PageOffsetMap.pages_of (PageOffsetMap.build (Some two_pages)) 0 4 = [1].
Proof.
  apply (pages_of_span_inside_page two_pages 0 (mkSpan 0 4 1) 0 4).
  - reflexivity.
  - cbn; lia.
  - lia.
  - cbn; lia.
Defined.

(** X6: a span that begins inside one page and ends inside the next one
    is mapped to the numbers of these two pages, in page order. *)
Theorem pages_of_span_across_separator (pages : list Page) (k : nat)
    (a b : PageSpan) (s e : Z) :
  nth_error (PageOffsetMap.build (Some pages)) k = Some a ->
  nth_error (PageOffsetMap.build (Some pages)) (S k) = Some b ->
  pm_start a <= s < pm_end a -> pm_start b < e <= pm_end b ->
  PageOffsetMap.pages_of (PageOffsetMap.build (Some pages)) s e
  = [pm_page_number a; pm_page_number b].
Proof.
  rewrite build_spans. apply pages_of_across.
Qed.

Lemma pages_of_span_across_separator_witness :
  PageOffsetMap.pages_of (PageOffsetMap.build (Some two_pages)) 2 8 = [1; 2].
Proof.
  apply (pages_of_span_across_separator two_pages 0 (mkSpan 0 4 1) (mkSpan 6 10 2) 2 8).
  - reflexivity.
  - reflexivity.
  - cbn; lia.
  - cbn; lia.
Defined.

End PageLookup.

(** ** Paragraph strategy: what the chunks hold *)

Section ParagraphInvariants.

Import Paragraph ParagraphShape.

Lemma join_snoc (sep : str) (l : list str) (y : str) :
  l <> [] -> join sep (l ++ [y]) = join sep l ++ sep ++ y.
Proof.
  induction l as [|a l IH]; intros Hne; [congruence|].
  destruct l as [|b l'].
  - reflexivity.
  - change (join sep ((a :: b :: l') ++ [y]))
      with (a ++ sep ++ join sep ((b :: l') ++ [y])).
    rewrite IH by discriminate.
    change (join sep (a :: b :: l')) with (a ++ sep ++ join sep (b :: l')).
    rewrite <- !app_assoc. reflexivity.
Qed.

Lemma join_snoc_merge (sep : str) (l : list str) (x y : str) :
  join sep (l ++ [x ++ sep ++ y]) = join sep (l ++ [x]) ++ sep ++ y.
Proof.
  destruct l as [|a l'].
  - reflexivity.
  - rewrite !join_snoc by discriminate. rewrite <- !app_assoc. reflexivity.
Qed.

(** An invariant of a loop body is an invariant of the loop, the items
    gone through being recorded. *)
Lemma fold_left_invariant {S A : Type} (f : S -> A -> S)
    (I : S -> list A -> Prop) :
  (forall st done x, I st done -> I (f st x) (done ++ [x])) ->
  forall xs st done, I st done -> I (fold_left f xs st) (done ++ xs).
Proof.
  intros Hstep. induction xs as [|x xs IH]; intros st done Hst.
  - rewrite app_nil_r. exact Hst.
  - cbn [fold_left].
    replace (done ++ x :: xs) with ((done ++ [x]) ++ xs)
      by (rewrite <- app_assoc; reflexivity).
    apply IH, Hstep, Hst.
Qed.

Lemma strip_nil_nonblank (p : str) : nonblank p = true -> p <> [].
Proof. intros H ->. discriminate H. Qed.

Lemma running_some (st : state) :
  current_chunk_text st <> [] -> running st = [current_chunk_text st].
Proof.
  intros H. unfold running. destruct (current_chunk_text st); [congruence | reflexivity].
Qed.

Lemma step_keeps (self : ParagraphChunkingStrategy) (page_map : list PageSpan)
    (st : state) (done : list str) (p : str) :
  keeps st done -> keeps (step self page_map st p) (done ++ [p]).
Proof.
  intros (Hjoin & Hnil & Hsome). unfold step, keeps.
  rewrite filter_app. cbn [filter]. fold (nonblank p).
  destruct (nonblank p) eqn:Hp; cbn [negb].
  - pose proof (strip_nil_nonblank p Hp) as Hpne.
    destruct (list_eq_dec ascii_dec (current_chunk_text st) []) as [Ecct|Ecct].
    + rewrite Ecct. cbn [truthy negb].
      destruct (Hnil Ecct) as [HC HF]. rewrite HC, HF.
      rewrite running_some by exact Hpne. cbn [chunks current_chunk_text].
      repeat split; try (intros; congruence).
      intros _ H. discriminate H.
    + assert (HF : filter nonblank done <> []) by (apply Hsome; exact Ecct).
      rewrite (running_some st Ecct) in Hjoin.
      replace (negb (truthy (current_chunk_text st))) with false
        by (destruct (current_chunk_text st); [congruence | reflexivity]).
      assert (Hgrow : filter nonblank done ++ [p] <> [])
        by (intros H; apply app_eq_nil in H; destruct H; discriminate).
      destruct (len (current_chunk_text st) + 2 + len p <? min_chunk_size self).
      * assert (Hm : current_chunk_text st ++ para_break ++ p <> [])
          by (intros H; apply app_eq_nil in H; destruct H; congruence).
        rewrite running_some by exact Hm. cbn [chunks current_chunk_text].
        split; [|split; [intros H; congruence | intros _; exact Hgrow]].
        rewrite join_snoc_merge, Hjoin, join_snoc by exact HF. reflexivity.
      * rewrite running_some by exact Hpne. cbn [chunks current_chunk_text].
        split; [|split; [intros H; congruence | intros _; exact Hgrow]].
        rewrite map_app. cbn [map finalize text].
        rewrite join_snoc
          by (intros H; apply app_eq_nil in H; destruct H; discriminate).
        rewrite Hjoin, join_snoc by exact HF. reflexivity.
  - rewrite app_nil_r. cbn [chunks current_chunk_text].
    assert (Hsame : forall pos, running (mkState (chunks st) (current_chunk_text st)
                                  (current_chunk_start st) pos) = running st)
      by reflexivity.
    rewrite Hsame. split; [exact Hjoin | split; assumption].
Qed.

(** X7: the chunk texts, joined by the paragraph break, are the
    non-blank paragraphs of the text joined by the paragraph break: every
    such paragraph is in exactly one chunk and the order is kept. *)
Theorem paragraph_chunks_keep_paragraphs (self : ParagraphChunkingStrategy)
    (txt : str) (pages : option (list Page)) :
  join para_break (map text (Paragraph.chunk self txt pages))
  = join para_break (filter nonblank (split txt para_break)).
Proof.
  unfold Paragraph.chunk. destruct txt as [|c0 txt']; [reflexivity|].
  cbn [truthy negb]. cbv zeta.
  set (ps := split (c0 :: txt') para_break).
  set (pm := PageOffsetMap.build pages).
  assert (Hinit : keeps (mkState [] [] 0 0) []).
  { unfold keeps, running. cbn. repeat split; congruence. }
  pose proof (fold_left_invariant (step self pm) keeps
                (fun st done x => step_keeps self pm st done x) ps _ [] Hinit)
    as (Hjoin & _ & _).
  cbn [app] in Hjoin. rewrite <- Hjoin. f_equal.
  unfold running.
  destruct (truthy (current_chunk_text (fold_left (step self pm) ps (mkState [] [] 0 0))));
    [rewrite map_app; reflexivity | rewrite app_nil_r; reflexivity].
Qed.

Lemma single_or_small_grow (self : ParagraphChunkingStrategy)
    (done : list str) (p t : str) :
  single_or_small self done t -> single_or_small self (done ++ [p]) t.
Proof.
  intros [H|H]; [left; apply in_or_app; left; exact H | right; exact H].
Qed.

Lemma step_sized (self : ParagraphChunkingStrategy) (page_map : list PageSpan)
    (st : state) (done : list str) (p : str) :
  sized self st done -> sized self (step self page_map st p) (done ++ [p]).
Proof.
  intros (HC & Hcct).
  assert (HC' : Forall (fun c => single_or_small self (done ++ [p]) (text c))
                  (chunks st)).
  { eapply Forall_impl; [|exact HC]. intros c. apply single_or_small_grow. }
  assert (Hp : single_or_small self (done ++ [p]) p)
    by (left; apply in_or_app; right; left; reflexivity).
  unfold step, sized.
  destruct (negb (truthy (strip p))); cbn [chunks current_chunk_text].
  - split; [exact HC'|].
    destruct Hcct as [H|H]; [left; exact H | right; apply single_or_small_grow, H].
  - destruct (current_chunk_text st) as [|c0 cct'] eqn:Ecct; cbn [truthy negb].
    + cbn [chunks current_chunk_text]. split; [exact HC' | right; exact Hp].
    + destruct (len (c0 :: cct') + 2 + len p <? min_chunk_size self) eqn:E;
        cbn [chunks current_chunk_text].
      * split; [exact HC'|]. right. right.
        apply Z.ltb_lt in E. rewrite !len_app. change (len para_break) with 2. lia.
      * split; [|right; exact Hp].
        apply Forall_app. split; [exact HC'|].
        constructor; [|constructor]. cbn [finalize text]. rewrite Ecct.
        destruct Hcct as [H|H]; [discriminate H | apply single_or_small_grow, H].
Qed.

(** X8: every chunk is either one paragraph of the text, as it stands,
    or shorter than [min_chunk_size]: paragraphs are merged only while the
    merged text stays below [min_chunk_size]. *)
Theorem paragraph_chunk_single_or_small (self : ParagraphChunkingStrategy)
    (txt : str) (pages : option (list Page)) :
  Forall (fun c => In (text c) (split txt para_break)
                   \/ len (text c) < min_chunk_size self)
         (Paragraph.chunk self txt pages).
Proof.
  unfold Paragraph.chunk. destruct txt as [|c0 txt']; [constructor|].
  cbn [truthy negb]. cbv zeta.
  set (ps := split (c0 :: txt') para_break).
  set (pm := PageOffsetMap.build pages).
  assert (Hinit : sized self (mkState [] [] 0 0) []).
  { split; [constructor | left; reflexivity]. }
  pose proof (fold_left_invariant (step self pm) (sized self)
                (fun st done x => step_sized self pm st done x) ps _ [] Hinit)
    as (HC & Hcct).
  cbn [app] in HC, Hcct.
  destruct (current_chunk_text (fold_left (step self pm) ps (mkState [] [] 0 0)))
    as [|c1 cct'] eqn:Ecct; cbn [truthy].
  - exact HC.
  - apply Forall_app. split; [exact HC|].
    constructor; [|constructor]. cbn [finalize text]. rewrite Ecct.
    destruct Hcct as [H|H]; [discriminate H | exact H].
Qed.

End ParagraphInvariants.

(** ** Sentence strategy: offsets and windows *)

Section SentenceOffsets.

Import Sentence SentenceShape.

(** The capturing split loses no character. *)
Lemma re_split_go_concat (s : str) :
  forall in_sep prev_terminal acc,
    List.concat (re_split_go true in_sep prev_terminal acc s) = rev acc ++ s.
Proof.
  induction s as [|c s IH]; intros in_sep pt acc.
  - cbn [re_split_go]. destruct in_sep; cbn; rewrite ?app_nil_r; reflexivity.
  - cbn [re_split_go]. destruct in_sep.
    + destruct (is_space c).
      * rewrite IH. cbn [rev]. rewrite <- app_assoc. reflexivity.
      * rewrite concat_app, IH. cbn. rewrite app_nil_r. reflexivity.
    + destruct (pt && is_space c).
      * cbn [List.concat]. rewrite IH. reflexivity.
      * rewrite IH. cbn [rev]. rewrite <- app_assoc. reflexivity.
Qed.

Lemma slice_middle {A : Type} (a b c : list A) :
  slice (a ++ b ++ c) (Z.of_nat (List.length a))
    (Z.of_nat (List.length a) + Z.of_nat (List.length b)) = b.
Proof.
  unfold slice, clamp_index. rewrite !length_app.
  replace (Z.of_nat (List.length a) <? 0) with false by cmp_false.
  replace (Z.of_nat (List.length a) + Z.of_nat (List.length b) <? 0)
    with false by cmp_false.
  rewrite !Z.min_l by lia.
  destruct (Nat.eq_dec (List.length b) 0) as [Hz|Hnz].
  - rewrite Hz, Z.add_0_r, Z.ltb_irrefl.
    symmetry. apply length_zero_iff_nil, Hz.
  - replace (Z.of_nat (List.length a) <?
             Z.of_nat (List.length a) + Z.of_nat (List.length b))
      with true by cmp_true.
    rewrite Nat2Z.id.
    replace (Z.to_nat (Z.of_nat (List.length a) + Z.of_nat (List.length b)
                       - Z.of_nat (List.length a)))
      with (List.length b) by lia.
    rewrite skipn_app, Nat.sub_diag, skipn_all, skipn_O, app_nil_l.
    rewrite firstn_app, Nat.sub_diag, firstn_all, firstn_O.
    apply app_nil_r.
Qed.

Lemma consecutive_snoc {A : Type} (R : A -> A -> Prop) (l : list A) (y : A) :
  consecutive R l -> Forall (fun x => R x y) l -> consecutive R (l ++ [y]).
Proof.
  induction l as [|a l IH]; intros Hc Hall; [exact I|].
  inversion Hall as [|? ? Hay Hrest]; subst.
  destruct l as [|b l'].
  - cbn. split; [exact Hay | exact I].
  - destruct Hc as [Hab Hc]. cbn [app consecutive]. split; [exact Hab|].
    apply IH; assumption.
Qed.

(** One part either leaves the records as they are or adds the record
    of the part; the cursor moves by the part's length. *)
Lemma step_cases (sents : list sentence) (pos : Z) (part : str) :
  exists sents',
    step (sents, pos) part = (sents', pos + len part)
    /\ (sents' = sents
        \/ (sents' = sents ++ [mkSentence (strip part) pos (pos + len part)]
            /\ part <> [] /\ strip part <> [])).
Proof.
  unfold step. destruct part as [|c part'] eqn:Epart.
  - exists sents. cbn [truthy negb]. split; [|left; reflexivity].
    rewrite len_nil, Z.add_0_r. reflexivity.
  - rewrite <- Epart. replace (negb (truthy part)) with false
      by (rewrite Epart; reflexivity).
    destruct (negb (truthy (strip part)) && re_match_spaces part).
    + exists sents. split; [reflexivity | left; reflexivity].
    + destruct (truthy (strip part)) eqn:Hstrip.
      * eexists. split; [reflexivity|]. right.
        split; [reflexivity|]. split; [rewrite Epart; discriminate|].
        intros H. rewrite H in Hstrip. discriminate.
      * exists sents. split; [reflexivity | left; reflexivity].
Qed.

(** The loop over the parts: with [pre] the text gone through, the
    records made so far point into the text, end at or before the cursor
    and lie one after the other. *)
Lemma sentences_fold (txt : str) (ps : list str) :
  forall (pre : str) (sents : list sentence),
    txt = pre ++ List.concat ps ->
    Forall (located txt) sents ->
    Forall (fun s => s_end s <= len pre) sents ->
    consecutive (fun a b => s_end a <= s_start b) sents ->
    Forall (located txt) (fst (fold_left step ps (sents, len pre)))
    /\ consecutive (fun a b => s_end a <= s_start b)
         (fst (fold_left step ps (sents, len pre))).
Proof.
  induction ps as [|part ps IH]; intros pre sents Htxt Hloc Hend Hord.
  - cbn. split; assumption.
  - cbn [fold_left List.concat] in Htxt |- *.
    assert (Hnext : txt = (pre ++ part) ++ List.concat ps)
      by (rewrite <- app_assoc; exact Htxt).
    assert (Hend' : Forall (fun s => s_end s <= len (pre ++ part)) sents).
    { eapply Forall_impl; [|exact Hend]. intros s Hs. cbn beta in Hs |- *.
      rewrite len_app. pose proof (len_nonneg part). lia. }
    destruct (step_cases sents (len pre) part) as (sents' & Hstep & Hcase).
    rewrite Hstep. rewrite <- len_app.
    destruct Hcase as [->|(-> & Hpart & Hstrip)].
    + apply (IH (pre ++ part) sents); assumption.
    + assert (Hplen : 0 < len part).
      { destruct part; [congruence|]. rewrite len_cons.
        pose proof (len_nonneg part). lia. }
      pose proof (len_nonneg pre) as Hpre.
      apply (IH (pre ++ part)); try assumption.
      * apply Forall_app. split; [exact Hloc|].
        constructor; [|constructor].
        unfold located. cbn [s_start s_end s_text].
        split; [lia|].
        split; [rewrite Htxt, !len_app;
                pose proof (len_nonneg (List.concat ps)); lia|].
        split; [|exact Hstrip].
        unfold len. rewrite Htxt, slice_middle. reflexivity.
      * apply Forall_app. split; [exact Hend'|].
        constructor; [cbn [s_end]; rewrite len_app; lia | constructor].
      * apply consecutive_snoc; [exact Hord|].
        eapply Forall_impl; [|exact Hend]. intros s Hs. cbn beta in *.
        cbn [s_start]. exact Hs.
Qed.

(** X9: every sentence record carries exact offsets: they lie inside the
    text, the text between them, stripped, is the sentence, no sentence
    is empty, and the records follow one another without overlap. *)
Theorem sentence_offsets_exact (txt : str) :
  Forall (located txt) (sentences_of txt)
  /\ consecutive (fun a b => s_end a <= s_start b) (sentences_of txt).
Proof.
  unfold sentences_of.
  apply (sentences_fold txt (re_split true txt) [] []).
  - unfold re_split. rewrite re_split_go_concat. reflexivity.
  - constructor.
  - constructor.
  - exact I.
Qed.

Lemma skipn_nth_error {A : Type} (l : list A) :
  forall (k : nat) (x : A),
    nth_error l k = Some x -> skipn k l = x :: skipn (S k) l.
Proof.
  induction l as [|a l IH]; intros k x Hk; [destruct k; discriminate|].
  destruct k as [|k].
  - cbn in Hk. inversion Hk; subst. reflexivity.
  - cbn [nth_error] in Hk. cbn [skipn]. apply IH, Hk.
Qed.

Lemma slice_single {A : Type} (l : list A) (k : nat) (x : A) :
  nth_error l k = Some x ->
  slice l (Z.of_nat k * 1) (Z.of_nat k * 1 + 1) = [x].
Proof.
  intros Hk.
  assert (Hlt : (k < List.length l)%nat)
    by (apply nth_error_Some; rewrite Hk; discriminate).
  unfold slice, clamp_index. rewrite Z.mul_1_r.
  replace (Z.of_nat k <? 0) with false by cmp_false.
  replace (Z.of_nat k + 1 <? 0) with false by cmp_false.
  rewrite !Z.min_l by lia.
  replace (Z.of_nat k <? Z.of_nat k + 1) with true by cmp_true.
  rewrite Nat2Z.id. replace (Z.to_nat (Z.of_nat k + 1 - Z.of_nat k)) with 1%nat by lia.
  rewrite (skipn_nth_error l k x Hk). reflexivity.
Qed.

(** With windows of one sentence and stride 1 the loop makes the chunk
    of each sentence in turn. *)
Lemma window_loop_singles (self : SentenceChunkingStrategy)
    (page_map : list PageSpan) (sents : list sentence) :
  sentences_per_chunk self = 1 ->
  forall (m k : nat) (acc : list Chunk),
    (k + m <= List.length sents)%nat ->
    window_loop self page_map sents
      (map (fun j => Z.of_nat j * 1) (seq k m)) acc
    = acc ++ map (sentence_chunk page_map) (firstn m (skipn k sents)).
Proof.
  intros Hspc. induction m as [|m IH]; intros k acc Hk.
  - cbn. rewrite app_nil_r. reflexivity.
  - destruct (nth_error sents k) as [x|] eqn:Ex;
      [|apply nth_error_None in Ex; lia].
    cbn [seq map window_loop]. rewrite Hspc.
    rewrite (slice_single sents k x Ex).
    rewrite IH by lia.
    rewrite (skipn_nth_error sents k x Ex). cbn [firstn map].
    rewrite <- app_assoc. reflexivity.
Qed.

(** X10: with [sentences_per_chunk = 1] and a non-negative [overlap], a
    text of two or more sentences gives one chunk per sentence, in
    order: its text is the stripped sentence and its pages are those of
    the sentence's own span. *)
Theorem sentence_one_chunk_per_sentence (self : SentenceChunkingStrategy)
    (txt : str) (pages : option (list Page)) :
  sentences_per_chunk self = 1 -> 0 <= overlap self ->
  (2 <= List.length (sentences_of txt))%nat ->
  Sentence.chunk self txt pages
  = map (sentence_chunk (PageOffsetMap.build pages)) (sentences_of txt).
Proof.
  intros Hspc Hov Htwo. unfold Sentence.chunk.
  destruct txt as [|c0 txt'] eqn:Etxt; [cbn in Htwo; lia|].
  rewrite <- Etxt in *. replace (negb (truthy txt)) with false by (rewrite Etxt; reflexivity).
  cbv zeta.
  destruct (sentences_of txt) as [|s0 ss] eqn:Es; [cbn in Htwo; lia|].
  rewrite <- Es in *.
  replace (Z.of_nat (List.length (sentences_of txt)) <=? sentences_per_chunk self)
    with false by (rewrite Hspc; cmp_false).
  assert (Hstride : (if sentences_per_chunk self - overlap self <? 1
                     then 1 else sentences_per_chunk self - overlap self) = 1).
  { destruct (Z.ltb_spec (sentences_per_chunk self - overlap self) 1); lia. }
  rewrite Hstride. unfold py_range.
  replace (Z.to_nat ((Z.of_nat (List.length (sentences_of txt)) + 1 - 1) / 1))
    with (List.length (sentences_of txt))
    by (rewrite Z.div_1_r; lia).
  rewrite (window_loop_singles self _ _ Hspc) by lia.
  cbn [app skipn]. rewrite firstn_all. reflexivity.
Qed.

Lemma sentence_one_chunk_per_sentence_witness :
  Sentence.chunk (Sentence.init 1 0) ParagraphSpec.example_text None
  = map (sentence_chunk (PageOffsetMap.build None))
        (sentences_of ParagraphSpec.example_text).
Proof.
  apply (sentence_one_chunk_per_sentence (Sentence.init 1 0)
           ParagraphSpec.example_text None).
  - reflexivity.
  - cbn; lia.
  - vm_compute. lia.
Defined.

End SentenceOffsets.

(** ** Recursive strategy: termination and sizes in general *)

Section RecursiveGeneral.

Import Recursive RecursiveSpec.

(** The separators left after the choice are fewer than the ones given. *)
Lemma select_loop_shorter (txt : str) (seps : list str) (d : str) :
  (List.length (snd (select_loop txt seps d)) <= pred (List.length seps))%nat.
Proof.
  induction seps as [|sep rest IH]; [cbn; lia|].
  cbn [select_loop]. destruct (eqb sep []); [cbn; lia|].
  destruct (contains (_regex_escape sep) txt || contains sep txt);
    [cbn; lia|].
  cbn [List.length pred]. lia.
Qed.

Lemma flush_nonblank (separator : str) (good cur : list str) :
  Forall (fun d => truthy (strip d) = true) good ->
  Forall (fun d => truthy (strip d) = true) (flush separator good cur).
Proof.
  intros Hgood. unfold flush.
  destruct (truthy (strip (join separator cur))) eqn:E; [|exact Hgood].
  apply Forall_app. split; [exact Hgood | constructor; [exact E | constructor]].
Qed.

(** The packing loop returns as soon as the nested calls do, and keeps a
    property of the pieces that [flush] and the nested calls keep. *)
Lemma merge_loop_returns (self : RecursiveChunkingStrategy)
    (recurse : str -> run (list str)) (separator : str)
    (new_separators : list str) (P : str -> Prop) :
  (new_separators <> [] ->
   forall s, exists pieces, recurse s = Done pieces /\ Forall P pieces) ->
  (forall good cur, Forall P good -> Forall P (flush separator good cur)) ->
  forall splits good cur n,
    Forall P good ->
    exists good' cur' n',
      merge_loop self recurse separator new_separators splits good cur n
      = Done (good', cur', n')
      /\ Forall P good'.
Proof.
  intros Hrec Hflush.
  induction splits as [|split splits IH]; intros good cur n Hgood.
  - exists good, cur, n. split; [reflexivity | exact Hgood].
  - cbn [merge_loop].
    destruct (_ >? chunk_size self); [|apply IH; exact Hgood].
    assert (Hafter : forall good1 cur1 n1,
      Forall P good1 ->
      exists good' cur' n',
        (if (len split >? chunk_size self)
            && negb (Nat.eqb (List.length new_separators) 0)
         then
           sub_chunks <- recurse split ;;
           merge_loop self recurse separator new_separators splits
             (good1 ++ sub_chunks) [] 0
         else
           merge_loop self recurse separator new_separators splits
             good1 (cur1 ++ [split]) (n1 + len split))
        = Done (good', cur', n') /\ Forall P good').
    { intros good1 cur1 n1 Hgood1.
      destruct ((len split >? chunk_size self)
                && negb (Nat.eqb (List.length new_separators) 0)) eqn:E;
        [|apply IH; exact Hgood1].
      apply andb_prop in E. destruct E as [_ E].
      assert (Hne : new_separators <> [])
        by (intros ->; discriminate E).
      destruct (Hrec Hne split) as (pieces & -> & Hp). cbn [bind].
      apply IH. apply Forall_app. split; assumption. }
    destruct cur as [|x cur0]; [apply Hafter; exact Hgood|].
    destruct (overlap_loop self separator (rev (x :: cur0)) [] 0) as [oc ol].
    apply Hafter, Hflush, Hgood.
Qed.

(** [_split_text] returns within as many nested calls as there are
    separators, and none of its pieces is blank. *)
Lemma split_text_returns (self : RecursiveChunkingStrategy) :
  forall (fuel : nat) (seps : list str) (txt : str),
    seps <> [] -> (List.length seps <= fuel)%nat ->
    exists pieces,
      _split_text fuel self txt seps = Done pieces
      /\ Forall (fun d => truthy (strip d) = true) pieces.
Proof.
  induction fuel as [|fuel IH]; intros seps txt Hne Hfuel.
  - destruct seps; [congruence | cbn in Hfuel; lia].
  - destruct seps as [|s0 rest]; [congruence|].
    cbn [_split_text].
    pose proof (select_loop_shorter txt (s0 :: rest) (last (s0 :: rest) [])) as Hshort.
    destruct (select_loop txt (s0 :: rest) (last (s0 :: rest) []))
      as [separator new_separators].
    cbn [snd List.length pred] in Hshort, Hfuel.
    destruct (merge_loop_returns self
                (fun s => _split_text fuel self s new_separators)
                separator new_separators
                (fun d => truthy (strip d) = true)
                (fun Hnew s => IH new_separators s Hnew ltac:(lia))
                (flush_nonblank separator)
                (if truthy separator then split txt separator
                 else map (fun c => [c]) txt)
                [] [] 0 (Forall_nil _))
      as (good' & cur' & n' & -> & Hgood).
    cbn [bind]. destruct cur'.
    + exists good'. split; [reflexivity | exact Hgood].
    + eexists. split; [reflexivity | apply flush_nonblank, Hgood].
Qed.

Lemma init_separators_nonempty (chunk_size chunk_overlap : Z)
    (seps : option (list str)) :
  separators (init chunk_size chunk_overlap seps) <> [].
Proof. destruct seps as [[|s l]|]; discriminate. Qed.

(** X11: a strategy built by the constructor always returns from
    [chunk]: the nesting of [_split_text] is at most the number of
    separators, no exception is raised, and no chunk is blank. *)
Theorem recursive_chunk_returns (chunk_size chunk_overlap : Z)
    (seps : option (list str)) (txt : str) (pages : option (list Page))
    (fuel : nat) :
  let self := init chunk_size chunk_overlap seps in
  (List.length (separators self) <= fuel)%nat ->
  exists chunks,
    Recursive.chunk fuel self txt pages = Done chunks
    /\ Forall (fun c => truthy (strip (text c)) = true) chunks.
Proof.
  intros self Hfuel. unfold Recursive.chunk.
  destruct (negb (truthy txt)); [exists []; split; [reflexivity | constructor]|].
  destruct (split_text_returns self fuel (separators self) txt
              (init_separators_nonempty _ _ _) Hfuel) as (pieces & -> & Hnb).
  cbn [bind]. eexists. split; [reflexivity|].
  pose proof (locate_texts txt (PageOffsetMap.build pages) pieces ([], 0)) as Ht.
  cbn [fst map app] in Ht.
  remember (fst (fold_left (locate txt (PageOffsetMap.build pages)) pieces ([], 0))) as cs.
  clear Heqcs. revert cs Ht.
  induction Hnb as [|d pieces Hd _ IHp]; intros cs Ht.
  - destruct cs; [constructor | discriminate].
  - destruct cs as [|c cs]; [discriminate|]. cbn [map] in Ht.
    inversion Ht as [[Hc Hcs]]. constructor; [rewrite Hc; exact Hd | apply IHp, Hcs].
Qed.

Lemma recursive_chunk_returns_witness :
  exists chunks,
    Recursive.chunk 4 (init 20 5 None) ParagraphSpec.example_text None
    = Done chunks
    /\ Forall (fun c => truthy (strip (text c)) = true) chunks.
Proof.
  apply (recursive_chunk_returns 20 5 None ParagraphSpec.example_text None 4).
  cbn. lia.
Defined.

(** With the empty string among the separators, the choice is the empty
    string with nothing left, or a non-empty separator with the empty
    string still among the ones left. *)
Lemma select_loop_with_empty (txt : str) (seps : list str) (d : str) :
  In [] seps ->
  select_loop txt seps d = ([], [])
  \/ (fst (select_loop txt seps d) <> []
      /\ In [] (snd (select_loop txt seps d))).
Proof.
  induction seps as [|sep rest IH]; intros Hin; [destruct Hin|].
  cbn [select_loop]. unfold eqb.
  destruct (list_eq_dec ascii_dec sep []) as [->|Hsep]; [left; reflexivity|].
  destruct Hin as [Hin|Hin]; [congruence|].
  destruct (contains (_regex_escape sep) txt || contains sep txt).
  - right. cbn [fst snd]. split; assumption.
  - apply IH, Hin.
Qed.

(** Without overlap nothing is carried over to the next chunk. *)
Lemma overlap_loop_nothing (self : RecursiveChunkingStrategy)
    (separator : str) (items : list str) :
  chunk_overlap self <= 0 ->
  overlap_loop self separator items [] 0 = ([], 0).
Proof.
  intros Hov. destruct items as [|item items]; [reflexivity|].
  cbn [overlap_loop].
  replace (0 + len item <? chunk_overlap self) with false
    by (pose proof (len_nonneg item); cmp_false).
  reflexivity.
Qed.

Lemma flush_within (size : Z) (separator : str) (good cur : list str) :
  Forall (fun d => len d <= size) good ->
  len (join separator cur) <= size ->
  Forall (fun d => len d <= size) (flush separator good cur).
Proof.
  intros Hgood Hcur. unfold flush.
  destruct (truthy (strip (join separator cur))); [|exact Hgood].
  apply Forall_app. split; [exact Hgood | constructor; [exact Hcur | constructor]].
Qed.

(** The packing loop without overlap: the tracked length is the length
    of the running chunk, and nothing longer than [chunk_size] is
    closed. *)
Lemma merge_loop_within (self : RecursiveChunkingStrategy)
    (recurse : str -> run (list str)) (separator : str)
    (new_separators : list str) :
  chunk_overlap self <= 0 -> 0 < chunk_size self ->
  (new_separators <> [] ->
   forall s, exists pieces,
     recurse s = Done pieces
     /\ Forall (fun d => len d <= chunk_size self) pieces) ->
  forall splits good cur n,
    (new_separators = [] ->
     Forall (fun d => len d <= chunk_size self) splits) ->
    Forall (fun d => len d <= chunk_size self) good ->
    n = len (join separator cur) -> n <= chunk_size self ->
    exists good' cur' n',
      merge_loop self recurse separator new_separators splits good cur n
      = Done (good', cur', n')
      /\ Forall (fun d => len d <= chunk_size self) good'
      /\ len (join separator cur') <= chunk_size self.
Proof.
  intros Hov Hsize Hrec.
  induction splits as [|split splits IH]; intros good cur n Hsplits Hgood Hn Hle.
  - exists good, cur, n. split; [reflexivity | split; [exact Hgood | lia]].
  - assert (Hrest : new_separators = [] ->
                    Forall (fun d => len d <= chunk_size self) splits).
    { intros H. specialize (Hsplits H). inversion Hsplits; assumption. }
    assert (Hafter : forall good1,
      Forall (fun d => len d <= chunk_size self) good1 ->
      exists good' cur' n',
        (if (len split >? chunk_size self)
            && negb (Nat.eqb (List.length new_separators) 0)
         then
           sub_chunks <- recurse split ;;
           merge_loop self recurse separator new_separators splits
             (good1 ++ sub_chunks) [] 0
         else
           merge_loop self recurse separator new_separators splits
             good1 ([] ++ [split]) (0 + len split))
        = Done (good', cur', n')
        /\ Forall (fun d => len d <= chunk_size self) good'
        /\ len (join separator cur') <= chunk_size self).
    { intros good1 Hgood1.
      destruct (len split >? chunk_size self) eqn:Ebig.
      - destruct new_separators as [|s0 new'] eqn:Enew.
        + cbn [List.length Nat.eqb negb andb].
          specialize (Hsplits eq_refl). inversion Hsplits as [|? ? Hs _]; subst.
          apply IH; [exact Hrest | exact Hgood1 | cbn; lia | lia].
        + cbn [List.length Nat.eqb negb andb].
          destruct (Hrec ltac:(discriminate) split) as (pieces & -> & Hp).
          cbn [bind]. apply IH;
            [exact Hrest | apply Forall_app; split; assumption
            | reflexivity | cbn; lia].
      - cbn [andb]. rewrite Z.gtb_ltb in Ebig. apply Z.ltb_ge in Ebig.
        apply IH; [exact Hrest | exact Hgood1 | cbn; lia | lia]. }
    cbn [merge_loop].
    destruct cur as [|x cur0].
    + cbn [List.length Nat.eqb negb].
      destruct (n + len split + 0 >? chunk_size self) eqn:E.
      * cbn [join len List.length] in Hn. subst n. apply Hafter, Hgood.
      * rewrite Z.gtb_ltb in E. apply Z.ltb_ge in E.
        apply IH; [exact Hrest | exact Hgood | subst n; cbn; lia | lia].
    + cbn [List.length Nat.eqb negb].
      destruct (n + len split + len separator >? chunk_size self) eqn:E.
      * rewrite (overlap_loop_nothing self separator _ Hov).
        apply Hafter, flush_within; [exact Hgood | lia].
      * rewrite Z.gtb_ltb in E. apply Z.ltb_ge in E.
        apply IH; [exact Hrest | exact Hgood | | ].
        -- rewrite join_snoc by discriminate. rewrite !len_app. lia.
        -- lia.
Qed.

Lemma split_text_within (self : RecursiveChunkingStrategy) :
  chunk_overlap self <= 0 -> 0 < chunk_size self ->
  forall (fuel : nat) (seps : list str) (txt : str),
    In [] seps -> (List.length seps <= fuel)%nat ->
    exists pieces,
      _split_text fuel self txt seps = Done pieces
      /\ Forall (fun d => len d <= chunk_size self) pieces.
Proof.
  intros Hov Hsize.
  induction fuel as [|fuel IH]; intros seps txt Hin Hfuel.
  - destruct seps; [destruct Hin | cbn in Hfuel; lia].
  - destruct seps as [|s0 rest]; [destruct Hin|].
    cbn [_split_text].
    pose proof (select_loop_shorter txt (s0 :: rest) (last (s0 :: rest) [])) as Hshort.
    pose proof (select_loop_with_empty txt (s0 :: rest) (last (s0 :: rest) []) Hin) as Hsel.
    destruct (select_loop txt (s0 :: rest) (last (s0 :: rest) []))
      as [separator new_separators].
    cbn [fst snd List.length pred] in Hshort, Hsel, Hfuel.
    assert (Hsplits : new_separators = [] ->
              Forall (fun d => len d <= chunk_size self)
                (if truthy separator then split txt separator
                 else map (fun c => [c]) txt)).
    { intros Hnew. destruct Hsel as [Hsel|[_ Hsel]].
      - inversion Hsel; subst. cbn [truthy].
        apply Forall_forall. intros d Hd. apply in_map_iff in Hd.
        destruct Hd as (c & <- & _). cbn. lia.
      - rewrite Hnew in Hsel. destruct Hsel. }
    destruct (merge_loop_within self
                (fun s => _split_text fuel self s new_separators)
                separator new_separators Hov Hsize
                (fun Hnew s =>
                   IH new_separators s
                     match Hsel with
                     | or_introl E => False_ind _ (Hnew (f_equal snd E))
                     | or_intror (conj _ H) => H
                     end
                     ltac:(lia))
                _ [] [] 0 Hsplits (Forall_nil _) eq_refl ltac:(lia))
      as (good' & cur' & n' & -> & Hgood & Hcur).
    cbn [bind]. destruct cur'.
    + exists good'. split; [reflexivity | exact Hgood].
    + eexists. split; [reflexivity | apply flush_within; assumption].
Qed.

(** X12: when the empty string is among the separators (it is in the
    default list), [chunk_size] is positive and [chunk_overlap] is not,
    [chunk] returns and every chunk's text is within [chunk_size],
    whatever the text. *)
Theorem recursive_no_overlap_bounded (self : RecursiveChunkingStrategy)
    (txt : str) (pages : option (list Page)) (fuel : nat) :
  In [] (separators self) ->
  chunk_overlap self <= 0 -> 0 < chunk_size self ->
  (List.length (separators self) <= fuel)%nat ->
  exists chunks,
    Recursive.chunk fuel self txt pages = Done chunks
    /\ bounded self chunks.
Proof.
  intros Hin Hov Hsize Hfuel. unfold Recursive.chunk.
  destruct (negb (truthy txt)); [exists []; split; [reflexivity | constructor]|].
  destruct (split_text_within self Hov Hsize fuel (separators self) txt Hin Hfuel)
    as (pieces & -> & Hb).
  cbn [bind]. eexists. split; [reflexivity|]. unfold bounded.
  pose proof (locate_texts txt (PageOffsetMap.build pages) pieces ([], 0)) as Ht.
  cbn [fst map app] in Ht.
  remember (fst (fold_left (locate txt (PageOffsetMap.build pages)) pieces ([], 0))) as cs.
  clear Heqcs. revert cs Ht.
  induction Hb as [|d pieces Hd _ IHp]; intros cs Ht.
  - destruct cs; [constructor | discriminate].
  - destruct cs as [|c cs]; [discriminate|]. cbn [map] in Ht.
    inversion Ht as [[Hc Hcs]]. constructor; [rewrite Hc; exact Hd | apply IHp, Hcs].
Qed.

Lemma recursive_no_overlap_bounded_witness :
  exists chunks,
    Recursive.chunk 4 (init 20 0 None) ParagraphSpec.example_text None
    = Done chunks
    /\ bounded (init 20 0 None) chunks.
Proof.
  apply (recursive_no_overlap_bounded (init 20 0 None)
           ParagraphSpec.example_text None 4).
  - cbn. tauto.
  - cbn. lia.
  - reflexivity.
  - cbn. lia.
Defined.

(** The bound needs the overlap to be absent: with [chunk_size = 10] and
    [chunk_overlap = 5] the word carried over and the next word make a
    chunk of 13 characters. *)
Example recursive_overlap_exceeds_size :
  Recursive.chunk 4 (init 10 5 None) (py "aaaa bbbb cccccccc") None
  = Done [mkChunk (py "aaaa bbbb") (Some []);
          mkChunk (py "bbbb cccccccc") (Some [])].
Proof. vm_compute. reflexivity. Qed.

End RecursiveGeneral.

(** ** Semantic strategy: embeddings and chunk texts *)

Section SemanticGeneral.

Import Semantic SemanticSpec.

Variable cosine_similarity : vector -> vector -> Q.


(** With fewer embeddings than positions to go through, the loop ends in
    an IndexError. *)
Lemma group_loop_short (self : SemanticChunkingStrategy)
    (sentences : list str) (embeddings : list vector) :
  forall (m k : nat) groups cur,
    (1 <= m)%nat -> (List.length embeddings < k + m)%nat ->
    group_loop cosine_similarity self sentences embeddings
      (seq k m) groups cur = inl IndexError.
Proof.
  induction m as [|m IH]; intros k groups cur Hm Hlen; [lia|].
  cbn [seq group_loop].
  destruct (nth_error embeddings (k - 1)) as [prev|]; [|reflexivity].
  destruct (nth_error embeddings k) as [curr|] eqn:Ek; [|reflexivity].
  destruct (nth_error sentences k) as [s|]; [|reflexivity].
  assert (Hk : (k < List.length embeddings)%nat)
    by (apply nth_error_Some; rewrite Ek; discriminate).
  destruct (Qle_bool _ _); apply IH; lia.
Qed.





(** X13: on a text of two or more sentences, a provider that returns
    fewer embeddings than sentences, all of one dimension [d >= 1] so
    that the similarity of any two of them is defined, makes [chunk]
    fail with an IndexError, with no partial chunk list. *)
Theorem semantic_missing_embedding_raises (self : SemanticChunkingStrategy)
    (txt : str) (pages : option (list Page)) (d : nat) :
  let sentences := _split_sentences txt in
  let embeddings := embed_batch (embedding_provider self) sentences in
  (2 <= List.length sentences)%nat ->
  SemanticEdge.uniform d embeddings ->
  (List.length embeddings < List.length sentences)%nat ->
  Semantic.chunk cosine_similarity self txt pages = inl IndexError.
Proof.
  intros sentences embeddings Htwo _ Hfew.
  unfold Semantic.chunk. destruct txt as [|c txt'].
  - exfalso. subst sentences. vm_compute in Htwo. lia.
  - cbn [truthy negb]. fold sentences.
    replace (List.length sentences <? 2)%nat with false
      by (symmetry; apply Nat.ltb_ge; exact Htwo).
    fold embeddings. unfold groups_of.
    rewrite group_loop_short; [reflexivity | lia | lia].
Qed.


End SemanticGeneral.

Lemma semantic_missing_embedding_raises_witness :
  Semantic.chunk SemanticSpec.same_vector
    (Semantic.init SemanticEdge.first_only_provider 1%Q)
    SemanticSpec.three_sentences None
  = inl IndexError.
Proof.
  apply (semantic_missing_embedding_raises SemanticSpec.same_vector
           (Semantic.init SemanticEdge.first_only_provider 1%Q)
           SemanticSpec.three_sentences None 1%nat).
  - vm_compute. lia.
  - split; [lia | repeat constructor].
  - vm_compute. lia.
Defined.


(** ** The strategy interface *)

Section InterfaceProofs.

Import ChunkFactory StrategyInterface.

(** The strategy a name is built into, for each name the factory knows. *)
Lemma get_strategy_inversion (name : string) (config : option Config)
    (provider : option EmbeddingProvider) (s : ChunkingStrategy) :
  get_strategy name config provider = inr s ->
  let c := match config with Some c => c | None => empty end in
  (name = "character"%string
   /\ s = CharacterStrategy
            (Character.init (get (cfg_chunk_size c) 1000)
                            (get (cfg_chunk_overlap c) 200)))
  \/ (name = "paragraph"%string
      /\ s = ParagraphStrategy (Paragraph.init (get (cfg_min_chunk_size c) 100)))
  \/ (name = "sentence"%string
      /\ s = SentenceStrategy
               (Sentence.init (get (cfg_sentences_per_chunk c) 5)
                              (get (cfg_overlap c) 1)))
  \/ (name = "semantic"%string
      /\ exists p, provider = Some p
           /\ s = SemanticStrategy
                    (Semantic.init p (get (cfg_threshold c) (8 # 10))))
  \/ (name = "recursive"%string
      /\ s = RecursiveStrategy
               (Recursive.init (get (cfg_chunk_size c) 1000)
                               (get (cfg_chunk_overlap c) 200)
                               (Some (get (cfg_separators c)
                                          Recursive.default_separators))))
  \/ (name = "hierarchical"%string
      /\ s = HierarchicalStrategy
               (Hierarchical.init (get (cfg_split_level c) 2))).
Proof.
  intros H. cbv zeta. unfold get_strategy in H.
  destruct (String.eqb name "character") eqn:E1.
  { apply String.eqb_eq in E1. inversion H. left. tauto. }
  destruct (String.eqb name "paragraph") eqn:E2.
  { apply String.eqb_eq in E2. inversion H. right. left. tauto. }
  destruct (String.eqb name "sentence") eqn:E3.
  { apply String.eqb_eq in E3. inversion H. right. right. left. tauto. }
  destruct (String.eqb name "semantic") eqn:E4.
  { apply String.eqb_eq in E4. destruct provider as [p|]; [|discriminate].
    inversion H. right. right. right. left. split; [exact E4|].
    exists p. split; reflexivity. }
  destruct (String.eqb name "recursive") eqn:E5.
  { apply String.eqb_eq in E5. inversion H. do 4 right. left. tauto. }
  destruct (String.eqb name "hierarchical") eqn:E6.
  { apply String.eqb_eq in E6. inversion H. do 5 right. tauto. }
  discriminate.
Qed.

(** X15: a strategy built under a name answers that name: asking the
    result of [get_strategy(name, ...)] for its [get_strategy_name()]
    gives [name] back. *)
Theorem strategy_name_round_trip (name : string) (config : option Config)
    (provider : option EmbeddingProvider) (s : ChunkingStrategy) :
  get_strategy name config provider = inr s ->
  get_strategy_name s = name.
Proof.
  intros H. apply get_strategy_inversion in H. cbv zeta in H.
  destruct H as [[-> ->]|[[-> ->]|[[-> ->]|[[-> (p & _ & ->)]|[[-> ->]|[-> ->]]]]]];
    reflexivity.
Qed.

Lemma strategy_name_round_trip_witness :
  get_strategy_name
    (RecursiveStrategy (Recursive.init 1000 200 (Some Recursive.default_separators)))
  = "recursive"%string.
Proof.
  apply (strategy_name_round_trip "recursive" None None).
  reflexivity.
Defined.

(** X16: the values the factory falls back on are the strategy's own
    defaults: a strategy built without a configuration is the strategy
    built from its [get_default_config()]. *)
Theorem default_config_rebuilds_strategy (name : string)
    (provider : option EmbeddingProvider) (s : ChunkingStrategy) :
  get_strategy name None provider = inr s ->
  get_strategy name (Some (get_default_config s)) provider = inr s.
Proof.
  intros H. apply get_strategy_inversion in H. cbv zeta in H.
  destruct H as [[-> ->]|[[-> ->]|[[-> ->]|[[-> (p & -> & ->)]|[[-> ->]|[-> ->]]]]]];
    reflexivity.
Qed.

Lemma default_config_rebuilds_strategy_witness :
  get_strategy "sentence"
    (Some (get_default_config (SentenceStrategy (Sentence.init 5 1)))) None
  = inr (SentenceStrategy (Sentence.init 5 1)).
Proof.
  apply (default_config_rebuilds_strategy "sentence" None).
  reflexivity.
Defined.

End InterfaceProofs.

(** ** The metrics of the chunk endpoint *)

Section MetricsProofs.

Import Metrics.

Lemma fold_min_spec (l : list Z) :
  forall x,
    In (fold_left Z.min l x) (x :: l)
    /\ Forall (fun y => fold_left Z.min l x <= y) (x :: l).
Proof.
  induction l as [|a l IH]; intros x.
  - cbn. split; [left; reflexivity | constructor; [lia | constructor]].
  - cbn [fold_left]. destruct (IH (Z.min x a)) as [Hin Hall].
    inversion Hall as [|? ? Hhd Htl]; subst. split.
    + destruct Hin as [Hin|Hin].
      * rewrite <- Hin. destruct (Z.min_spec x a) as [[_ ->]|[_ ->]];
          [left; reflexivity | right; left; reflexivity].
      * right. right. exact Hin.
    + constructor; [lia|]. constructor; [lia | exact Htl].
Qed.

Lemma fold_max_spec (l : list Z) :
  forall x,
    In (fold_left Z.max l x) (x :: l)
    /\ Forall (fun y => y <= fold_left Z.max l x) (x :: l).
Proof.
  induction l as [|a l IH]; intros x.
  - cbn. split; [left; reflexivity | constructor; [lia | constructor]].
  - cbn [fold_left]. destruct (IH (Z.max x a)) as [Hin Hall].
    inversion Hall as [|? ? Hhd Htl]; subst. split.
    + destruct Hin as [Hin|Hin].
      * rewrite <- Hin. destruct (Z.max_spec x a) as [[_ ->]|[_ ->]];
          [right; left; reflexivity | left; reflexivity].
      * right. right. exact Hin.
    + constructor; [lia|]. constructor; [lia | exact Htl].
Qed.

Lemma fold_add_shift (l : list Z) :
  forall a, fold_left Z.add l a = a + fold_left Z.add l 0.
Proof.
  induction l as [|x l IH]; intros a; [cbn; lia|].
  cbn [fold_left]. rewrite (IH (a + x)), (IH (0 + x)). lia.
Qed.

Lemma sum_between (lo hi : Z) (l : list Z) :
  Forall (fun y => lo <= y <= hi) l ->
  lo * Z.of_nat (List.length l) <= py_sum l <= hi * Z.of_nat (List.length l).
Proof.
  unfold py_sum. induction 1 as [|x l Hx _ IH]; [cbn; lia|].
  cbn [fold_left List.length]. rewrite fold_add_shift. lia.
Qed.

(** X17: over a non-empty chunk list, [min_size] and [max_size] are
    lengths of chunks of the list, and every chunk's length lies between
    them; [total_chunks] is the number of chunks. *)
Theorem metrics_min_max_attained (chunks : list Chunk) :
  chunks <> [] ->
  let m := calculate chunks in
  total_chunks m = Z.of_nat (List.length chunks)
  /\ (exists c, In c chunks /\ len (text c) = min_size m)
  /\ (exists c, In c chunks /\ len (text c) = max_size m)
  /\ Forall (fun c => min_size m <= len (text c) <= max_size m) chunks.
Proof.
  intros Hne. destruct chunks as [|c0 cs]; [congruence|].
  unfold calculate, sizes. cbn [map]. cbv zeta.
  cbn [total_chunks min_size max_size].
  set (x := len (text c0)). set (l := map (fun c => len (text c)) cs).
  destruct (fold_min_spec l x) as [Hmin_in Hmin_all].
  destruct (fold_max_spec l x) as [Hmax_in Hmax_all].
  assert (Hin : forall v, In v (x :: l) ->
            exists c, In c (c0 :: cs) /\ len (text c) = v).
  { intros v [<-|Hv]; [exists c0; split; [left|]; reflexivity|].
    apply in_map_iff in Hv. destruct Hv as (c & <- & Hc).
    exists c. split; [right; exact Hc | reflexivity]. }
  split; [reflexivity|]. split; [apply Hin, Hmin_in|].
  split; [apply Hin, Hmax_in|].
  rewrite Forall_forall in Hmin_all, Hmax_all. apply Forall_forall.
  intros c Hc.
  assert (Hv : In (len (text c)) (x :: l)).
  { destruct Hc as [<-|Hc]; [left; reflexivity|].
    right. apply in_map_iff. exists c. split; [reflexivity | exact Hc]. }
  unfold py_min, py_max. split; [apply Hmin_all, Hv | apply Hmax_all, Hv].
Qed.

Lemma metrics_min_max_attained_witness :
  let chunks := [mkChunk (py "abcd") None; mkChunk (py "ab") None] in
  let m := calculate chunks in
  total_chunks m = Z.of_nat (List.length chunks)
  /\ (exists c, In c chunks /\ len (text c) = min_size m)
  /\ (exists c, In c chunks /\ len (text c) = max_size m)
  /\ Forall (fun c => min_size m <= len (text c) <= max_size m) chunks.
Proof.
  apply (metrics_min_max_attained
           [mkChunk (py "abcd") None; mkChunk (py "ab") None]).
  discriminate.
Defined.

(** X18: over a non-empty chunk list the average size lies between the
    smallest and the largest size; over the empty list the three sizes
    are zero. *)
Theorem metrics_average_between (chunks : list Chunk) :
  let m := calculate chunks in
  (chunks = [] -> avg_size m = 0%Q /\ min_size m = 0 /\ max_size m = 0)
  /\ (chunks <> [] ->
      (inject_Z (min_size m) <= avg_size m)%Q
      /\ (avg_size m <= inject_Z (max_size m))%Q).
Proof.
  cbv zeta. split; [intros ->; repeat split|].
  intros Hne. destruct chunks as [|c0 cs]; [congruence|].
  unfold calculate, sizes. cbn [map avg_size min_size max_size].
  set (x := len (text c0)). set (l := map (fun c => len (text c)) cs).
  destruct (fold_min_spec l x) as [_ Hmin_all].
  destruct (fold_max_spec l x) as [_ Hmax_all].
  assert (Hall : Forall (fun y => py_min x l <= y <= py_max x l) (x :: l)).
  { rewrite Forall_forall in *. intros y Hy. unfold py_min, py_max.
    split; [apply Hmin_all, Hy | apply Hmax_all, Hy]. }
  pose proof (sum_between _ _ _ Hall) as [Hlo Hhi].
  assert (Hn : (0 < inject_Z (Z.of_nat (List.length (x :: l))))%Q).
  { rewrite <- (Zlt_Qlt 0). cbn [List.length]. lia. }
  split.
  - apply Qle_shift_div_l; [exact Hn|].
    rewrite <- inject_Z_mult, <- Zle_Qle. exact Hlo.
  - apply Qle_shift_div_r; [exact Hn|].
    rewrite <- inject_Z_mult, <- Zle_Qle. exact Hhi.
Qed.

Lemma metrics_average_between_witness :
  let chunks := [mkChunk (py "abcd") None; mkChunk (py "ab") None] in
  let m := calculate chunks in
  (chunks = [] -> avg_size m = 0%Q /\ min_size m = 0 /\ max_size m = 0)
  /\ (chunks <> [] ->
      (inject_Z (min_size m) <= avg_size m)%Q
      /\ (avg_size m <= inject_Z (max_size m))%Q).
Proof.
  apply (metrics_average_between
           [mkChunk (py "abcd") None; mkChunk (py "ab") None]).
Defined.

End MetricsProofs.

(** ** The page-offset map and the document text *)

Section PageText.

Import PageMapSpec.

(** The interval of page [k] frames the page's text inside the joined
    texts, shifted by the offset the map starts from. *)
Lemma spans_frame (pages : list Page) :
  forall off k en p,
    nth_error (spans_from off pages) k = Some en ->
    nth_error pages k = Some p ->
    exists before after,
      join para_break (map page_text pages)
      = before ++ page_text p ++ after
      /\ pm_start en = off + len before
      /\ pm_end en = pm_start en + len (page_text p)
      /\ pm_page_number en = page_number p.
Proof.
  induction pages as [|q rest IH]; intros off k en p Hen Hp;
    [destruct k; discriminate|].
  destruct k as [|k].
  - cbn in Hen, Hp. inversion Hen; inversion Hp; subst.
    cbn [pm_start pm_end pm_page_number].
    exists [], (match rest with
                | [] => []
                | _ :: _ => para_break ++ join para_break (map page_text rest)
                end).
    split; [|split; [rewrite len_nil; lia | split; reflexivity]].
    destruct rest; [cbn; rewrite app_nil_r|]; reflexivity.
  - cbn [nth_error spans_from] in Hen, Hp.
    destruct rest as [|r rest']; [destruct k; discriminate|].
    destruct (IH _ k en p Hen Hp) as (before & after & Hjoin & Hs & He & Hn).
    exists (page_text q ++ para_break ++ before), after.
    split; [|split; [|split; assumption]].
    + change (join para_break (map page_text (q :: r :: rest')))
        with (page_text q ++ para_break
              ++ join para_break (map page_text (r :: rest'))).
      rewrite Hjoin, <- !app_assoc. reflexivity.
    + rewrite Hs, !len_app. change (len para_break) with 2. lia.
Qed.

(** X19: the interval the map gives a page frames exactly that page's
    text in the document built by joining the page texts: slicing the
    document at the interval gives the text of the page back. *)
Theorem page_interval_slices_page_text (pages : list Page) (k : nat)
    (en : PageSpan) (p : Page) :
  nth_error (PageOffsetMap.build (Some pages)) k = Some en ->
  nth_error pages k = Some p ->
  slice (PageOffsetMap.document_text pages) (pm_start en) (pm_end en)
  = page_text p
  /\ pm_page_number en = page_number p.
Proof.
  rewrite build_spans. intros Hen Hp.
  destruct (spans_frame pages 0 k en p Hen Hp)
    as (before & after & Hjoin & Hs & He & Hn).
  split; [|exact Hn].
  unfold PageOffsetMap.document_text. rewrite Hjoin, He, Hs.
  unfold len. rewrite Z.add_0_l. apply slice_middle.
Qed.

Lemma page_interval_slices_page_text_witness :
  slice (PageOffsetMap.document_text two_pages) 6 10 = py "BBBB"
  /\ 2 = 2.
Proof.
  apply (page_interval_slices_page_text two_pages 1 (mkSpan 6 10 2)
           (mkPage 2 (py "BBBB"))).
  - reflexivity.
  - reflexivity.
Defined.

End PageText.

(** ** Counting the chunks *)

Section ChunkCounts.

Import CharacterShape.

(** Rounding a quotient up, one divisor at a time. *)
Lemma ceil_step (x d : Z) :
  0 < d -> 0 < x ->
  (x + d - 1) / d = 1 + (Z.max 0 (x - d) + d - 1) / d.
Proof.
  intros Hd Hx. destruct (Z_le_dec x d) as [Hle|Hgt].
  - rewrite Z.max_l by lia. rewrite (Z.div_small (0 + d - 1)) by lia.
    symmetry. apply Z.div_unique with (r := x - 1); lia.
  - rewrite Z.max_r by lia.
    replace (x + d - 1) with ((x - d + d - 1) + 1 * d) by lia.
    rewrite Z.div_add by lia. lia.
Qed.

Lemma chunk_loop_count (self : Character.CharacterChunkingStrategy)
    (txt : str) (page_map : list PageSpan) :
  0 <= Character.chunk_overlap self < Character.chunk_size self ->
  forall (n : nat) (start : Z),
    0 <= start < len txt -> len txt - start <= Z.of_nat n ->
    exists spans,
      (forall fuel chunks, (n <= fuel)%nat ->
         Character.chunk_loop fuel self txt page_map start chunks
         = Some (chunks ++ spans))
      /\ Z.of_nat (List.length spans)
         = 1 + (Z.max 0 (len txt - start - Character.chunk_size self)
                + stride self - 1) / stride self.
Proof.
  intros Hcfg. unfold stride.
  induction n as [|n IH]; intros start Hstart Hn; [lia|].
  destruct (Z_lt_dec (start + Character.chunk_size self) (len txt)) as [Hmore|Hlast].
  - destruct (IH (start + (Character.chunk_size self - Character.chunk_overlap self))
                ltac:(lia) ltac:(lia)) as (spans & Hrun & Hcount).
    eexists (_ :: spans). split.
    + intros fuel chunks Hfuel. destruct fuel as [|fuel]; [lia|].
      cbn [Character.chunk_loop].
      replace (start <? len txt) with true by cmp_true.
      replace (start + Character.chunk_size self >=? len txt) with false by cmp_false.
      rewrite Hrun by lia. rewrite <- app_assoc. reflexivity.
    + cbn [List.length]. rewrite Nat2Z.inj_succ, Hcount.
      rewrite (Z.max_r 0 (len txt - start - Character.chunk_size self)) by lia.
      rewrite (ceil_step (len txt - start - Character.chunk_size self)) by lia.
      replace (len txt - (start + (Character.chunk_size self - Character.chunk_overlap self))
               - Character.chunk_size self)
        with (len txt - start - Character.chunk_size self
              - (Character.chunk_size self - Character.chunk_overlap self)) by lia.
      lia.
  - eexists [_]. split.
    + intros fuel chunks Hfuel. destruct fuel as [|fuel]; [lia|].
      cbn [Character.chunk_loop].
      replace (start <? len txt) with true by cmp_true.
      replace (start + Character.chunk_size self >=? len txt) with true by cmp_true.
      reflexivity.
    + rewrite Z.max_l by lia. rewrite Z.div_small by lia. reflexivity.
Qed.

(** X20: for [0 <= chunk_overlap < chunk_size] a non-empty text of
    length [n] is cut into [1 + ceil(max(0, n - chunk_size) / stride)]
    chunks, with [stride = chunk_size - chunk_overlap]. *)
Theorem character_chunk_count (self : Character.CharacterChunkingStrategy)
    (txt : str) (pages : option (list Page)) :
  0 <= Character.chunk_overlap self < Character.chunk_size self ->
  txt <> [] ->
  exists chunks,
    (forall fuel, (List.length txt <= fuel)%nat ->
       Character.chunk fuel self txt pages = Some chunks)
    /\ Z.of_nat (List.length chunks)
       = 1 + (Z.max 0 (len txt - Character.chunk_size self)
              + stride self - 1) / stride self.
Proof.
  intros Hcfg Hne.
  assert (Hpos : 0 < len txt)
    by (destruct txt; [congruence | rewrite len_cons; pose proof (len_nonneg txt); lia]).
  destruct (chunk_loop_count self txt (PageOffsetMap.build pages) Hcfg
              (List.length txt) 0 ltac:(lia) ltac:(unfold len; lia))
    as (spans & Hrun & Hcount).
  exists (map snd spans). split.
  - intros fuel Hfuel. unfold Character.chunk, Character.chunk_spans.
    destruct txt; [congruence|]. cbn [truthy negb].
    rewrite (Hrun fuel [] Hfuel). reflexivity.
  - rewrite length_map, Hcount, Z.sub_0_r. reflexivity.
Qed.

Lemma character_chunk_count_witness :
  exists chunks,
    (forall fuel, (List.length ParagraphSpec.example_text <= fuel)%nat ->
       Character.chunk fuel (Character.init 20 5) ParagraphSpec.example_text None
       = Some chunks)
    /\ Z.of_nat (List.length chunks)
       = 1 + (Z.max 0 (len ParagraphSpec.example_text
                       - Character.chunk_size (Character.init 20 5))
              + stride (Character.init 20 5) - 1) / stride (Character.init 20 5).
Proof.
  apply (character_chunk_count (Character.init 20 5) ParagraphSpec.example_text None).
  - cbn; lia.
  - discriminate.
Defined.

Import Sentence.

Lemma slice_nonempty {A : Type} (l : list A) (i size : Z) :
  0 <= i < Z.of_nat (List.length l) -> 1 <= size ->
  slice l i (i + size) <> [].
Proof.
  intros Hi Hsize Hnil.
  assert (Hlen : List.length (slice l i (i + size)) = 0%nat)
    by (rewrite Hnil; reflexivity).
  unfold slice, clamp_index in Hlen.
  replace (i <? 0) with false in Hlen by cmp_false.
  replace (i + size <? 0) with false in Hlen by cmp_false.
  replace (Z.min i (Z.of_nat (List.length l)) <?
           Z.min (i + size) (Z.of_nat (List.length l)))
    with true in Hlen by cmp_true.
  rewrite length_firstn, length_skipn in Hlen. lia.
Qed.

(** A window that starts inside the list is never empty, so the loop
    goes through all its indices. *)
Lemma window_loop_length (self : SentenceChunkingStrategy)
    (page_map : list PageSpan) (sents : list sentence) :
  1 <= sentences_per_chunk self ->
  forall (indices : list Z) (acc : list Chunk),
    Forall (fun i => 0 <= i < Z.of_nat (List.length sents)) indices ->
    List.length (window_loop self page_map sents indices acc)
    = (List.length acc + List.length indices)%nat.
Proof.
  intros Hspc. induction indices as [|i indices IH]; intros acc Hall.
  - cbn. lia.
  - inversion Hall as [|? ? Hi Hrest]; subst. cbn [window_loop].
    pose proof (slice_nonempty sents i (sentences_per_chunk self) Hi Hspc) as Hne.
    destruct (slice sents i (i + sentences_per_chunk self)) as [|g gs];
      [congruence|].
    rewrite IH by exact Hrest. rewrite length_app. cbn [List.length]. lia.
Qed.

Lemma py_range_inside (n step : Z) :
  1 <= step ->
  Forall (fun i => 0 <= i < n) (py_range n step).
Proof.
  intros Hstep. unfold py_range. apply Forall_forall. intros i Hi.
  apply in_map_iff in Hi. destruct Hi as (k & <- & Hk). apply in_seq in Hk.
  assert (Hq : Z.of_nat k < (n + step - 1) / step) by lia.
  pose proof (Z.mul_div_le (n + step - 1) step ltac:(lia)) as Hle.
  split; [nia|]. nia.
Qed.

(** X21: with [sentences_per_chunk >= 1], a text with more sentences
    than fit in one chunk is cut into [ceil(n / stride)] chunks, [n]
    being the number of sentences and [stride] the larger of 1 and
    [sentences_per_chunk - overlap]: no window is skipped. *)
Theorem sentence_window_count (self : SentenceChunkingStrategy)
    (txt : str) (pages : option (list Page)) :
  let n := Z.of_nat (List.length (sentences_of txt)) in
  let stride := Z.max 1 (sentences_per_chunk self - overlap self) in
  1 <= sentences_per_chunk self -> sentences_per_chunk self < n ->
  Z.of_nat (List.length (Sentence.chunk self txt pages))
  = (n + stride - 1) / stride.
Proof.
  cbv zeta. intros Hspc Hmany. unfold Sentence.chunk.
  destruct txt as [|c0 txt'] eqn:Etxt; [cbn in Hmany; lia|].
  rewrite <- Etxt in *.
  replace (negb (truthy txt)) with false by (rewrite Etxt; reflexivity).
  destruct (sentences_of txt) as [|s0 ss] eqn:Es; [cbn in Hmany; lia|].
  rewrite <- Es in *.
  replace (Z.of_nat (List.length (sentences_of txt)) <=? sentences_per_chunk self)
    with false by cmp_false.
  assert (Hstride : (if sentences_per_chunk self - overlap self <? 1
                     then 1 else sentences_per_chunk self - overlap self)
                    = Z.max 1 (sentences_per_chunk self - overlap self)).
  { destruct (Z.ltb_spec (sentences_per_chunk self - overlap self) 1); lia. }
  rewrite Hstride.
  rewrite (window_loop_length self _ _ Hspc)
    by (apply py_range_inside; lia).
  cbn [List.length]. unfold py_range. rewrite length_map, length_seq.
  apply Z2Nat.id. apply Z.div_pos; lia.
Qed.

Lemma sentence_window_count_witness :
  Z.of_nat (List.length
              (Sentence.chunk (Sentence.init 2 1) ParagraphSpec.example_text None))
  = (Z.of_nat (List.length (sentences_of ParagraphSpec.example_text))
     + Z.max 1 (sentences_per_chunk (Sentence.init 2 1)
                - overlap (Sentence.init 2 1)) - 1)
    / Z.max 1 (sentences_per_chunk (Sentence.init 2 1)
               - overlap (Sentence.init 2 1)).
Proof.
  apply (sentence_window_count (Sentence.init 2 1) ParagraphSpec.example_text None).
  - cbn; lia.
  - vm_compute. reflexivity.
Defined.

(** X22: with [sentences_per_chunk = 0] every window is empty and the
    loop stops at the first one: [chunk] returns no chunk, on every
    text. *)
Theorem sentence_zero_window_no_chunks (self : SentenceChunkingStrategy)
    (txt : str) (pages : option (list Page)) :
  sentences_per_chunk self = 0 ->
  Sentence.chunk self txt pages = [].
Proof.
  intros Hspc. unfold Sentence.chunk.
  destruct (negb (truthy txt)); [reflexivity|]. cbv zeta.
  destruct (sentences_of txt) as [|s0 ss]; [reflexivity|].
  rewrite Hspc.
  replace (Z.of_nat (List.length (s0 :: ss)) <=? 0) with false
    by (cbn [List.length]; cmp_false).
  set (stride := if 0 - overlap self <? 1 then 1 else 0 - overlap self).
  assert (Hstride : 1 <= stride)
    by (subst stride; destruct (Z.ltb_spec (0 - overlap self) 1); lia).
  unfold py_range.
  assert (Hq : 1 <= (Z.of_nat (List.length (s0 :: ss)) + stride - 1) / stride).
  { apply Z.div_le_lower_bound; [lia|]. cbn [List.length]. lia. }
  destruct (Z.to_nat ((Z.of_nat (List.length (s0 :: ss)) + stride - 1) / stride))
    as [|q] eqn:Eq; [lia|].
  cbn [seq map window_loop]. rewrite Hspc. reflexivity.
Qed.

Lemma sentence_zero_window_no_chunks_witness :
  Sentence.chunk (Sentence.init 0 1) ParagraphSpec.example_text None = [].
Proof.
  apply (sentence_zero_window_no_chunks (Sentence.init 0 1)
           ParagraphSpec.example_text None).
  reflexivity.
Defined.

End ChunkCounts.

(** ** Semantic strategy: page numbers of a chunk *)

Section SemanticPages.

Import Semantic.

Lemma nodup_snoc (l : list Z) (x : Z) :
  NoDup l -> ~ In x l -> NoDup (l ++ [x]).
Proof.
  induction 1 as [|a l Ha Hl IH]; intros Hx.
  - constructor; [intros [] | constructor].
  - cbn [app]. constructor.
    + intros Hin. apply in_app_or in Hin. destruct Hin as [Hin|[Hin|[]]].
      * exact (Ha Hin).
      * apply Hx. left. symmetry. exact Hin.
    + apply IH. intros Hin. apply Hx. right. exact Hin.
Qed.

Lemma existsb_eqb_In (x : Z) (l : list Z) :
  existsb (Z.eqb x) l = true <-> In x l.
Proof.
  rewrite existsb_exists. split.
  - intros (y & Hy & E). apply Z.eqb_eq in E. subst. exact Hy.
  - intros H. exists x. split; [exact H | apply Z.eqb_refl].
Qed.

(** [append_new] adds the numbers not yet listed, and only those. *)
Lemma append_new_spec (spans : list PageSpan) :
  forall acc,
    NoDup acc ->
    NoDup (append_new acc spans)
    /\ (forall x, In x (append_new acc spans)
                  <-> In x acc \/ In x (map pm_page_number spans)).
Proof.
  induction spans as [|pm spans IH]; intros acc Hacc.
  - cbn. split; [exact Hacc | intros x; tauto].
  - cbn [append_new map].
    destruct (existsb (Z.eqb (pm_page_number pm)) acc) eqn:E.
    + apply existsb_eqb_In in E.
      destruct (IH acc Hacc) as [Hnd Hin]. split; [exact Hnd|].
      intros x. rewrite Hin. cbn [In]. split; [tauto|].
      intros [H|[<-|H]]; tauto.
    + assert (Hnot : ~ In (pm_page_number pm) acc).
      { intros H. apply existsb_eqb_In in H. congruence. }
      destruct (IH _ (nodup_snoc acc _ Hacc Hnot)) as [Hnd Hin].
      split; [exact Hnd|]. intros x. rewrite Hin, in_app_iff. cbn [In]. tauto.
Qed.

(** X23: when [_get_chunk_metadata] returns page numbers, there is a
    first occurrence of the chunk text in the document, no page number
    is listed twice, and the numbers listed are those of the pages whose
    interval meets the span of that first occurrence. *)
Theorem semantic_page_numbers_distinct (chunk_text full_text : str)
    (pages : option (list Page)) (numbers : list Z) :
  _get_chunk_metadata chunk_text full_text pages = Some numbers ->
  let start_index := find full_text chunk_text 0 in
  start_index <> -1
  /\ NoDup numbers
  /\ (forall x, In x numbers
                <-> In x (PageOffsetMap.pages_of (PageOffsetMap.build pages)
                            start_index (start_index + len chunk_text))).
Proof.
  unfold _get_chunk_metadata. intros H. cbv zeta.
  destruct pages as [[|p ps]|]; try discriminate.
  destruct (find full_text chunk_text 0 =? -1) eqn:E; [discriminate|].
  apply Z.eqb_neq in E. inversion H; subst numbers.
  destruct (append_new_spec
              (filter (PageOffsetMap.intersects (find full_text chunk_text 0)
                         (find full_text chunk_text 0 + len chunk_text))
                 (PageOffsetMap.build (Some (p :: ps))))
              [] (NoDup_nil _)) as [Hnd Hin].
  split; [exact E | split; [exact Hnd|]].
  intros x. rewrite Hin. unfold PageOffsetMap.pages_of. cbn [In]. tauto.
Qed.

Lemma semantic_page_numbers_distinct_witness :
  let start_index := find (py "AAAA") (py "AA") 0 in
  start_index <> -1
  /\ NoDup [1]
  /\ (forall x, In x [1]
                <-> In x (PageOffsetMap.pages_of
                            (PageOffsetMap.build (Some [mkPage 1 (py "AAAA")]))
                            start_index (start_index + len (py "AA")))).
Proof.
  apply (semantic_page_numbers_distinct (py "AA") (py "AAAA")
           (Some [mkPage 1 (py "AAAA")]) [1]).
  reflexivity.
Defined.

End SemanticPages.

(** ** The two sentence splitters agree *)

Section SentenceSplitters.

Import Sentence SentenceSpec.

(** The texts of the records the loop makes are the stripped non-blank
    parts, in order. *)
Lemma sentences_fold_texts (ps : list str) :
  forall (sents : list sentence) (pos : Z),
    map s_text (fst (fold_left step ps (sents, pos)))
    = map s_text sents
      ++ map strip (filter (fun s => truthy (strip s)) ps).
Proof.
  induction ps as [|part ps IH]; intros sents pos.
  - cbn. rewrite app_nil_r. reflexivity.
  - cbn [fold_left filter].
    destruct (step_cases sents pos part) as (sents' & Hstep & Hcase).
    rewrite Hstep, IH.
    destruct Hcase as [->|(-> & Hpart & Hstrip)].
    + destruct (truthy (strip part)) eqn:E; [|reflexivity].
      exfalso. revert Hstep. unfold step.
      destruct part as [|c part']; [discriminate E|].
      cbn [truthy negb]. rewrite E. cbn [negb andb].
      intros H. apply (f_equal fst) in H. cbn [fst] in H.
      apply (f_equal (@List.length sentence)) in H.
      rewrite length_app in H. cbn [List.length] in H. lia.
    + replace (truthy (strip part)) with true
        by (destruct (strip part); [congruence | reflexivity]).
      rewrite map_app. cbn [map s_text]. rewrite <- app_assoc. reflexivity.
Qed.

(** The separators the capturing split adds are blank: both splits have
    the same non-blank parts. *)
Lemma re_split_go_same_nonblank (s : str) :
  forall in_sep prev_terminal acc,
    (in_sep = true -> all_space acc = true) ->
    filter (fun p => truthy (strip p)) (re_split_go true in_sep prev_terminal acc s)
    = filter (fun p => truthy (strip p)) (re_split_go false in_sep prev_terminal acc s).
Proof.
  induction s as [|c s IH]; intros in_sep pt acc Hacc.
  - cbn [re_split_go]. destruct in_sep; [|reflexivity].
    cbn [filter]. rewrite (strip_all_space _ (all_space_rev _ (Hacc eq_refl))).
    reflexivity.
  - cbn [re_split_go]. destruct in_sep.
    + destruct (is_space c) eqn:Ec.
      * apply IH. intros _. cbn [all_space forallb]. rewrite Ec.
        exact (Hacc eq_refl).
      * rewrite !filter_app. cbn [filter].
        rewrite (strip_all_space _ (all_space_rev _ (Hacc eq_refl))).
        cbn [truthy app]. apply IH. discriminate.
    + destruct (pt && is_space c) eqn:Ec.
      * cbn [filter]. apply andb_prop in Ec. destruct Ec as [_ Ec].
        rewrite (IH true false [c]); [reflexivity|].
        intros _. cbn [all_space forallb]. rewrite Ec. reflexivity.
      * apply IH. discriminate.
Qed.

(** X24: the sentences of the Sentence strategy, found with the
    capturing split and offsets, are the sentences [_split_sentences]
    returns, which the Semantic strategy works on: both strategies see
    the same sentences, in the same order. *)
Theorem sentence_splitters_agree (txt : str) :
  map s_text (sentences_of txt) = _split_sentences txt.
Proof.
  unfold sentences_of, _split_sentences, re_split.
  rewrite sentences_fold_texts. cbn [map app].
  rewrite re_split_go_same_nonblank by discriminate. reflexivity.
Qed.

End SentenceSplitters.

(** ** Character strategy: a negative overlap *)

Section CharacterNegativeOverlap.

Import Character CharacterSpec CharacterStated.

(** With [chunk_size = 2] and [chunk_overlap = -1] the cursor jumps by 3:
    of ["abc"] only ["ab"] is emitted. *)
Lemma negative_overlap_run (fuel : nat) :
  chunk_spans (S (S fuel)) (init 2 (-1)) (py "abc") None
  = Some [(0, mkChunk (py "ab") (Some []))].
Proof. reflexivity. Qed.

(** C5, as stated, fails: with [chunk_size = 2] and [chunk_overlap = -1],
    which is below [chunk_size], the text ["abc"] gives the single chunk
    ["ab"], and offset 2 lies in no chunk's span. *)
Lemma negative_overlap_leaves_gap :
  ~ stated_coverage (init 2 (-1)) (py "abc").
Proof.
  intros H.
  destruct (H ltac:(cbn; lia) ltac:(discriminate)) as (fuel & spans & Hrun & Hcov).
  destruct fuel as [|[|fuel]]; [discriminate Hrun | discriminate Hrun |].
  rewrite negative_overlap_run in Hrun. inversion Hrun; subst spans.
  destruct (Hcov 2 ltac:(cbn; lia)) as (start & c & Hin & Hspan).
  destruct Hin as [Hin|[]]. inversion Hin; subst. cbn in Hspan. lia.
Qed.

End CharacterNegativeOverlap.

(** ** Recursive strategy: the chunks of an unsplittable token *)

Section RecursiveTokenWindows.

Import Recursive RecursiveSpec RecursiveWindows.

Lemma join_singles (w : str) : join [] (map (fun c => [c]) w) = w.
Proof.
  rewrite join_nil_concat. induction w as [|c w IH]; [reflexivity|].
  cbn [map List.concat app]. rewrite IH. reflexivity.
Qed.

(** The overlap loop on single characters keeps the first [kk - a] of
    the items it is given, [a] being the number kept so far. *)
Lemma overlap_loop_singles (self : RecursiveChunkingStrategy) (kk : nat) :
  Z.of_nat kk = carried self ->
  forall (items : str) (oc : list str) (a : nat),
    overlap_loop self [] (map (fun c => [c]) items) oc (Z.of_nat a)
    = (map (fun c => [c])
         (rev (firstn (Nat.min (List.length items) (kk - a)) items)) ++ oc,
       Z.of_nat (a + Nat.min (List.length items) (kk - a))).
Proof.
  intros Hkk. unfold carried in Hkk.
  induction items as [|c items IH]; intros oc a.
  - cbn. rewrite Nat.add_0_r. reflexivity.
  - cbn [map overlap_loop]. change (len [c]) with 1. rewrite len_nil.
    destruct (Nat.lt_ge_cases a kk) as [Hlt|Hge].
    + replace (Z.of_nat a + 1 <? chunk_overlap self) with true by cmp_true.
      replace (Z.of_nat a + (1 + 0)) with (Z.of_nat (S a)) by lia.
      rewrite IH. cbn [List.length].
      replace (Nat.min (S (List.length items)) (kk - a))
        with (S (Nat.min (List.length items) (kk - S a))) by lia.
      rewrite firstn_cons. cbn [rev]. rewrite map_app, <- app_assoc.
      cbn [map app]. f_equal. f_equal. lia.
    + replace (Z.of_nat a + 1 <? chunk_overlap self) with false by cmp_false.
      replace (kk - a)%nat with 0%nat by lia.
      rewrite Nat.min_0_r, Nat.add_0_r. reflexivity.
Qed.

(** One turn of the packing loop, empty separator, nothing to recurse
    on: the part fits. *)
Lemma merge_fit (self : RecursiveChunkingStrategy)
    (recurse : str -> run (list str)) (split : str) (splits : list str)
    (good cur : list str) (n : Z) :
  n + len split <= chunk_size self ->
  merge_loop self recurse [] [] (split :: splits) good cur n
  = merge_loop self recurse [] [] splits good (cur ++ [split]) (n + len split).
Proof.
  intros Hfit. cbn [merge_loop]. rewrite len_nil.
  destruct cur as [|x cur0]; cbn [List.length Nat.eqb negb].
  - replace (n + len split + 0 >? chunk_size self) with false by cmp_false.
    reflexivity.
  - replace (n + len split + 0 >? chunk_size self) with false by cmp_false.
    f_equal. lia.
Qed.

(** One turn of the packing loop: the part does not fit, the running
    chunk is closed and its tail carried over. *)
Lemma merge_over (self : RecursiveChunkingStrategy)
    (recurse : str -> run (list str)) (split : str) (splits : list str)
    (good cur : list str) (n : Z) :
  cur <> [] -> chunk_size self < n + len split ->
  merge_loop self recurse [] [] (split :: splits) good cur n
  = merge_loop self recurse [] [] splits (flush [] good cur)
      (fst (overlap_loop self [] (rev cur) [] 0) ++ [split])
      (snd (overlap_loop self [] (rev cur) [] 0) + len split).
Proof.
  intros Hcur Hover. cbn [merge_loop]. rewrite len_nil.
  destruct cur as [|x cur0]; [congruence|]. cbn [List.length Nat.eqb negb].
  replace (n + len split + 0 >? chunk_size self) with true by cmp_true.
  destruct (overlap_loop self [] (rev (x :: cur0)) [] 0) as [oc ol].
  rewrite andb_false_r. reflexivity.
Qed.

Lemma firstn_exact {A : Type} (w rest : list A) :
  firstn (List.length w) (w ++ rest) = w.
Proof.
  rewrite firstn_app, Nat.sub_diag, firstn_all, firstn_O. apply app_nil_r.
Qed.

Section Token.

Variable self : RecursiveChunkingStrategy.
Variable txt : str.
Variables sz kk : nat.
Hypothesis Hsz : Z.of_nat sz = chunk_size self.
Hypothesis Hkk : Z.of_nat kk = carried self.
Hypothesis Hlt : (kk < sz)%nat.

(** The packing loop on the characters [rest] of the token, the
    characters [pre] gone through and the running chunk begun at [s]: it
    closes the windows at [s], [s + st], ... and is left with the
    characters from the last start on. *)
Lemma merge_chars_windows (recurse : str -> run (list str)) :
  forall (rest pre : str) (good : list str) (s : nat),
    txt = pre ++ rest ->
    (s <= List.length pre)%nat -> (List.length pre - s <= sz)%nat ->
    (pre <> [] -> (s < List.length pre)%nat) ->
    exists m,
      merge_loop self recurse [] [] (map (fun c => [c]) rest) good
        (map (fun c => [c]) (skipn s pre)) (Z.of_nat (List.length pre - s))
      = Done (good
              ++ filter nonblank
                   (map (fun t => firstn sz (skipn t txt))
                      (map (fun j => (s + j * (sz - kk))%nat) (seq 0 m))),
              map (fun c => [c]) (skipn (s + m * (sz - kk)) txt),
              Z.of_nat (List.length txt - (s + m * (sz - kk))))
      /\ (forall j, (j < m)%nat ->
            (s + j * (sz - kk) + sz < List.length txt)%nat)
      /\ (List.length txt - (s + m * (sz - kk)) <= sz)%nat
      /\ (txt <> [] -> (s + m * (sz - kk) < List.length txt)%nat).
Proof.
  induction rest as [|c rest IH]; intros pre good s Htxt Hs Hn Hpre.
  - rewrite app_nil_r in Htxt. subst pre. exists 0%nat.
    cbn [seq map filter merge_loop].
    replace (s + 0 * (sz - kk))%nat with s by lia.
    rewrite app_nil_r. split; [reflexivity|].
    split; [intros j Hj; lia|]. split; [exact Hn | exact Hpre].
  - assert (Htxt' : txt = (pre ++ [c]) ++ rest)
      by (rewrite <- app_assoc; exact Htxt).
    assert (Hlen' : List.length (pre ++ [c]) = S (List.length pre))
      by (rewrite length_app; cbn; lia).
    assert (HL : List.length txt = (List.length pre + S (List.length rest))%nat)
      by (rewrite Htxt, length_app; reflexivity).
    cbn [map].
    destruct (Nat.lt_ge_cases (List.length pre - s) sz) as [Hfit|Hfull].
    + rewrite merge_fit by (change (len [c]) with 1; lia).
      destruct (IH (pre ++ [c]) good s Htxt' ltac:(lia) ltac:(lia) ltac:(intros; lia))
        as (m & Hrun & Hw & Hleft & Hlast).
      exists m. split; [|split; [exact Hw | split; [exact Hleft | exact Hlast]]].
      rewrite <- Hrun. f_equal.
      * rewrite skipn_app. replace (s - List.length pre)%nat with 0%nat by lia.
        rewrite map_app. reflexivity.
      * change (len [c]) with 1. lia.
    + assert (Hw : List.length (skipn s pre) = sz)
        by (rewrite length_skipn; lia).
      assert (Hcur : map (fun c => [c]) (skipn s pre) <> [])
        by (destruct (skipn s pre); [cbn in Hw; lia | discriminate]).
      rewrite merge_over; [|exact Hcur | change (len [c]) with 1; lia].
      rewrite <- map_rev.
      pose proof (overlap_loop_singles self kk Hkk (rev (skipn s pre)) [] 0)
        as Hol.
      change (Z.of_nat 0) with 0 in Hol. rewrite Hol. clear Hol.
      cbn [fst snd]. rewrite length_rev, Hw, Nat.sub_0_r, app_nil_r.
      replace (Nat.min sz kk) with kk by lia.
      rewrite firstn_rev, rev_involutive, Hw, skipn_skipn.
      assert (Hflush : flush [] good (map (fun c => [c]) (skipn s pre))
                       = good ++ filter nonblank [firstn sz (skipn s txt)]).
      { unfold flush. rewrite join_singles.
        replace (firstn sz (skipn s txt)) with (skipn s pre).
        - cbn [filter]. unfold nonblank.
          destruct (truthy (strip (skipn s pre))); [reflexivity | rewrite app_nil_r; reflexivity].
        - rewrite Htxt, skipn_app.
          replace (s - List.length pre)%nat with 0%nat by lia.
          rewrite skipn_O, <- Hw. symmetry. apply firstn_exact. }
      rewrite Hflush.
      destruct (IH (pre ++ [c]) (good ++ filter nonblank [firstn sz (skipn s txt)])
                  (s + (sz - kk))%nat Htxt'
                  ltac:(lia) ltac:(lia) ltac:(intros; lia))
        as (m & Hrun & Hwin & Hleft & Hlast).
      exists (S m). split; [|split; [|split]].
      * etransitivity; [etransitivity; [|exact Hrun]|].
        -- f_equal; [|change (len [c]) with 1; lia].
           rewrite skipn_app.
           replace (s + (sz - kk) - List.length pre)%nat with 0%nat by lia.
           rewrite map_app, (Nat.add_comm s). reflexivity.
        -- f_equal. f_equal; [f_equal|].
           ++ rewrite <- app_assoc. f_equal.
              rewrite <- filter_app. f_equal.
              cbn [seq map]. rewrite <- seq_shift, !map_map.
              replace (s + 0 * (sz - kk))%nat with s by lia.
              cbn [app]. f_equal. apply map_ext. intros j. f_equal. f_equal. lia.
           ++ f_equal. f_equal. lia.
           ++ f_equal. lia.
      * intros j Hj. destruct j as [|j]; [lia|].
        specialize (Hwin j ltac:(lia)). lia.
      * replace (s + S m * (sz - kk))%nat
          with (s + (sz - kk) + m * (sz - kk))%nat by lia. exact Hleft.
      * intros Hne. specialize (Hlast Hne). lia.
Qed.

End Token.

Lemma Forall_window {A : Type} (P : A -> Prop) (l : list A) (t n : nat) :
  Forall P l -> Forall P (firstn n (skipn t l)).
Proof.
  intros H. rewrite <- (firstn_skipn t l) in H.
  apply Forall_app in H. destruct H as [_ H].
  rewrite <- (firstn_skipn n (skipn t l)) in H.
  apply Forall_app in H. exact (proj1 H).
Qed.

(** A non-empty text with no whitespace character is not blank. *)
Lemma nonblank_no_space (w : str) :
  w <> [] -> Forall (fun c => is_space c = false) w -> nonblank w = true.
Proof.
  intros Hne Hall. unfold nonblank, strip.
  assert (Hl : forall v : str,
             Forall (fun c => is_space c = false) v -> lstrip v = v).
  { intros v Hf. destruct v as [|c v]; [reflexivity|].
    inversion Hf as [|? ? Hc _]. cbn [lstrip]. rewrite Hc. reflexivity. }
  rewrite (Hl w Hall), (Hl (rev w) (Forall_rev Hall)), rev_involutive.
  destruct w; [congruence | reflexivity].
Qed.

(** The windows of the token, counted in [nat] and as slices. *)
Lemma windows_as_slices (self : RecursiveChunkingStrategy) (txt : str)
    (sz st m : nat) :
  Z.of_nat sz = chunk_size self -> Z.of_nat st = step self ->
  (1 <= sz)%nat -> (m * st < List.length txt)%nat ->
  map (fun t => firstn sz (skipn t txt))
    (map (fun j => (j * st)%nat) (seq 0 (S m)))
  = map (window self txt) (CharacterShape.multiples (S m) (step self)).
Proof.
  intros Hsz Hst Hpos Hlast. unfold CharacterShape.multiples.
  rewrite !map_map. apply map_ext_in. intros j Hj. apply in_seq in Hj.
  unfold window. rewrite slice_as_firstn.
  - rewrite <- Hsz, <- Hst, <- Nat2Z.inj_mul, !Nat2Z.id. reflexivity.
  - rewrite <- Hst, <- Nat2Z.inj_mul. unfold len.
    assert (j * st <= m * st)%nat by (apply Nat.mul_le_mono_r; lia). lia.
  - lia.
Qed.

(** C4, amended: with the default separators, [0 < chunk_size] and
    [chunk_overlap < chunk_size], a text longer than [chunk_size] in
    which none of the separators [\n\n], [\n] and the space occurs is
    chunked at the first level of the recursion: [chunk] returns, every
    chunk is at most [chunk_size] characters long, and the chunks are the
    windows [txt[s : s + chunk_size]] at the starts [s = 0, step, 2 *
    step, ..., m * step], with [step = chunk_size - max 0 (chunk_overlap
    - 1)], the blank ones left out; the last window is the first to reach
    the end of the text.  When the text has no whitespace character at
    all no window is left out. *)
Theorem recursive_unsplittable_token_windows
    (self : RecursiveChunkingStrategy) (txt : str)
    (pages : option (list Page)) :
  separators self = default_separators ->
  0 < chunk_size self -> chunk_overlap self < chunk_size self ->
  chunk_size self < len txt ->
  unsplittable txt ->
  exists chunks m,
    (forall fuel, (1 <= fuel)%nat ->
       Recursive.chunk fuel self txt pages = Done chunks)
    /\ bounded self chunks
    /\ cut_into_windows self txt m chunks
    /\ (Forall (fun c => is_space c = false) txt ->
        map text chunks
        = map (window self txt)
            (CharacterShape.multiples (S m) (step self))).
Proof.
  intros Hseps Hpos Hcfg Hlong Huns.
  assert (Hsz : Z.of_nat (Z.to_nat (chunk_size self)) = chunk_size self) by lia.
  assert (Hkk : Z.of_nat (Z.to_nat (carried self)) = carried self)
    by (unfold carried; lia).
  assert (Hlt : (Z.to_nat (carried self) < Z.to_nat (chunk_size self))%nat)
    by (unfold carried; lia).
  revert Hsz Hkk Hlt.
  generalize (Z.to_nat (chunk_size self)) (Z.to_nat (carried self)).
  intros sz kk Hsz Hkk Hlt.
  assert (Hne : txt <> []) by (intros ->; cbn in Hlong; lia).
  destruct (merge_chars_windows self txt sz kk Hsz Hkk Hlt (fun _ => OutOfFuel)
              txt [] [] 0%nat eq_refl (Nat.le_refl _) ltac:(cbn; lia)
              ltac:(intros H; congruence))
    as (m & Hrun & Hwin & Hleft & Hlast).
  specialize (Hlast Hne).
  assert (Hst : Z.of_nat (sz - kk) = step self) by (unfold step; lia).
  assert (Hst1 : (1 <= sz - kk)%nat) by lia.
  revert Hrun Hwin Hleft Hlast Hst Hst1.
  generalize (sz - kk)%nat. intros st Hrun Hwin Hleft Hlast Hst Hst1.
  cbn [skipn map List.length Nat.sub Nat.add Z.of_nat app] in Hrun, Hwin, Hleft, Hlast.
  set (wnat := fun t : nat => firstn sz (skipn t txt)) in *.
  set (pieces := filter nonblank
                   (map wnat (map (fun j => (j * st)%nat) (seq 0 (S m))))).
  assert (Hsplit : forall fuel, (1 <= fuel)%nat ->
            _split_text fuel self txt default_separators = Done pieces).
  { intros fuel Hfuel. destruct fuel as [|fuel]; [lia|].
    cbn [_split_text]. unfold default_separators at 1.
    rewrite (select_loop_unsplittable txt Huns). cbn [truthy].
    match goal with
    | |- context [merge_loop ?s ?r ?a ?b ?c ?d ?e ?f] =>
        replace (merge_loop s r a b c d e f)
          with (Done (filter nonblank
                        (map wnat (map (fun j => (j * st)%nat) (seq 0 m))),
                      map (fun ch => [ch]) (skipn (m * st) txt),
                      Z.of_nat (List.length txt - m * st)))
          by (symmetry; etransitivity;
              [apply (merge_loop_no_recursion self _ (fun _ => OutOfFuel))
              | exact Hrun])
    end.
    cbn [bind].
    assert (Hcur : map (fun c => [c]) (skipn (m * st) txt) <> []).
    { intros E. apply (f_equal (@List.length _)) in E.
      rewrite length_map, length_skipn in E. cbn in E. lia. }
    clear Hrun.
    destruct (map (fun c => [c]) (skipn (m * st) txt)) as [|x cur] eqn:E;
      [congruence|]. rewrite <- E. clear E Hcur.
    f_equal. unfold flush. rewrite join_singles.
    unfold pieces. rewrite seq_S, !map_app, filter_app.
    cbn [map filter Nat.add].
    replace (wnat (m * st)%nat) with (skipn (m * st) txt)
      by (unfold wnat; symmetry; apply firstn_all2; rewrite length_skipn; lia).
    change (nonblank (skipn (m * st) txt))
      with (truthy (strip (skipn (m * st) txt))).
    destruct (truthy (strip (skipn (m * st) txt)));
      [reflexivity | rewrite app_nil_r; reflexivity]. }
  assert (Hconv : map wnat (map (fun j => (j * st)%nat) (seq 0 (S m)))
                  = map (window self txt)
                      (CharacterShape.multiples (S m) (step self)))
    by (apply windows_as_slices; [exact Hsz | exact Hst | lia | exact Hlast]).
  pose proof (locate_texts txt (PageOffsetMap.build pages) pieces ([], 0))
    as Htexts.
  cbn [fst map app] in Htexts.
  exists (fst (fold_left (locate txt (PageOffsetMap.build pages)) pieces ([], 0))), m.
  assert (Hchunk : forall fuel, (1 <= fuel)%nat ->
            Recursive.chunk fuel self txt pages
            = Done (fst (fold_left (locate txt (PageOffsetMap.build pages))
                           pieces ([], 0)))).
  { intros fuel Hfuel. unfold Recursive.chunk.
    destruct txt as [|c txt']; [congruence|].
    cbn [truthy negb]. rewrite Hseps, (Hsplit fuel Hfuel). reflexivity. }
  split; [exact Hchunk|]. split; [|split].
  - destruct (unsplittable_token_chunks_bounded self txt pages
                Hseps Hpos Hcfg Hlong Huns) as (cs & Hcs & Hb).
    specialize (Hcs 1%nat (Nat.le_refl _)).
    rewrite (Hchunk 1%nat (Nat.le_refl _)) in Hcs.
    injection Hcs as <-. exact Hb.
  - unfold cut_into_windows. rewrite Htexts. unfold pieces. rewrite Hconv.
    split; [reflexivity|]. rewrite <- Hst, <- Hsz. unfold len.
    split; [|split; [|lia]].
    + intros j Hj. specialize (Hwin j Hj). lia.
    + lia.
  - intros Hall. rewrite Htexts. unfold pieces. rewrite <- Hconv.
    apply forallb_filter_id. apply forallb_forall. intros w Hw.
    rewrite map_map in Hw. apply in_map_iff in Hw.
    destruct Hw as (j & <- & Hj). apply in_seq in Hj.
    apply nonblank_no_space; [|apply Forall_window; exact Hall].
    unfold wnat. intros E. apply (f_equal (@List.length _)) in E.
    rewrite length_firstn, length_skipn in E. cbn [List.length] in E.
    assert (j * st <= m * st)%nat by (apply Nat.mul_le_mono_r; lia). lia.
Qed.

Lemma recursive_unsplittable_token_windows_witness :
  exists chunks m,
    (forall fuel, (1 <= fuel)%nat ->
       Recursive.chunk fuel (init 4 1 None) (py "abcdefghij") None
       = Done chunks)
    /\ bounded (init 4 1 None) chunks
    /\ cut_into_windows (init 4 1 None) (py "abcdefghij") m chunks
    /\ (Forall (fun c => is_space c = false) (py "abcdefghij") ->
        map text chunks
        = map (window (init 4 1 None) (py "abcdefghij"))
            (CharacterShape.multiples (S m) (step (init 4 1 None)))).
Proof.
  apply (recursive_unsplittable_token_windows
           (init 4 1 None) (py "abcdefghij") None).
  - reflexivity.
  - reflexivity.
  - reflexivity.
  - reflexivity.
  - repeat split; reflexivity.
Defined.

(** C4, as stated, fails: nothing bounds [chunk_size] from below.
    With [chunk_size = 0] and [chunk_overlap = -1] the token [abc] is
    cut into its three characters, each one longer than [chunk_size]. *)
Lemma zero_size_token_not_bounded :
  ~ stated_bounded (init 0 (-1) None) (py "abc").
Proof.
  unfold stated_bounded. intros H.
  destruct H as (fuel & chunks & Hrun & Hb);
    [reflexivity | reflexivity | reflexivity | repeat split; reflexivity |].
  destruct fuel as [|fuel]; [discriminate|].
  assert (Hc : Recursive.chunk (S fuel) (init 0 (-1) None) (py "abc") None
               = Done [mkChunk (py "a") (Some []); mkChunk (py "b") (Some []);
                       mkChunk (py "c") (Some [])]) by reflexivity.
  rewrite Hc in Hrun. injection Hrun as <-.
  inversion Hb as [|? ? Hlen _]. cbn in Hlen. lia.
Qed.

End RecursiveTokenWindows.
